(** * InputField and DataTable (src/App.tsx): sort and selection logic

    A shallow embedding of the two widgets of [src/App.tsx]. The hooks
    [useState] become explicit state records, event handlers become
    functions from the state of the current render to the next state and to
    the list of calls made on the host's callbacks, and the JSX each widget
    returns becomes a [view] holding what the markup depends on.

    Values of type [any] are modelled by the primitive values a record
    field can hold. Numbers are the integers (and NaN, which a missing field
    converts to); strings are sequences of code units below 256. Objects as
    field values, bigints and properties inherited from a prototype are not
    modelled. *)

From stdpp Require Import base option list sorting gmap strings fin_maps.
From Stdlib Require Import ZArith OrdersEx.

Open Scope Z_scope.

(** ** The language level: values, completions, comparison, Set, sort *)

Module JS.

Inductive number := NaN | Num (z : Z).

Inductive value :=
| VUndefined
| VNull
| VBoolean (b : bool)
| VNumber (n : number)
| VString (s : string)
| VSymbol (description : string).

Inductive error := TypeError.

(** A completion record: an operation returns normally or throws. *)
Inductive completion (A : Type) :=
| Normal (a : A)
| Throw (e : error).
Arguments Normal {A} a.
Arguments Throw {A} e.

#[global] Instance completion_ret : MRet completion := @Normal.
#[global] Instance completion_bind : MBind completion :=
  λ A B f m, match m with Normal a => f a | Throw e => Throw e end.

#[global] Instance number_eq_dec : EqDecision number.
Proof. solve_decision. Defined.
#[global] Instance value_eq_dec : EqDecision value.
Proof. solve_decision. Defined.

(** The numeric reading of a string (ECMA-262, StringToNumber) belongs to
    the runtime; the development is parametric in it. *)
Class Runtime := { StringToNumber : string → number }.

Section conversions.
Context `{!Runtime}.

Definition ToNumber (v : value) : completion number :=
  match v with
  | VUndefined => Normal NaN
  | VNull => Normal (Num 0)
  | VBoolean b => Normal (Num (if b then 1 else 0))
  | VNumber n => Normal n
  | VString s => Normal (StringToNumber s)
  | VSymbol _ => Throw TypeError
  end.

Definition ToBoolean (v : value) : bool :=
  match v with
  | VUndefined | VNull => false
  | VBoolean b => b
  | VNumber NaN => false
  | VNumber (Num z) => negb (z =? 0)
  | VString s => negb (String.eqb s "")
  | VSymbol _ => true
  end.

(** [x || y] *)
Definition or_else (x y : value) : value := if ToBoolean x then x else y.

(** IsLessThan(x, y): [Some b] for true or false, [None] for undefined
    (an operand is NaN). Two strings are compared by code units, any other
    pair by their numeric conversions. *)
Definition IsLessThan (x y : value) : completion (option bool) :=
  match x, y with
  | VString sx, VString sy => Normal (Some (String.ltb sx sy))
  | _, _ =>
      nx ← ToNumber x;
      ny ← ToNumber y;
      Normal (match nx, ny with
              | Num a, Num b => Some (a <? b)
              | _, _ => None
              end)
  end.

(** [x < y] and [x > y] *)
Definition less_than (x y : value) : completion bool :=
  r ← IsLessThan x y; Normal (default false r).
Definition greater_than (x y : value) : completion bool :=
  r ← IsLessThan y x; Normal (default false r).

End conversions.

(** *** Functions of the host

    A function passed as a prop is opaque; a tag names it. The effect of a
    handler on the host is the list of the calls it makes, in order. *)
Definition callback := nat.

(** *** Objects used as records

    [o[k]] on a record: the own property, or undefined. *)
Abbreviation object := (gmap string value).

Definition get (o : object) (k : string) : value := default VUndefined (o !! k).

(** *** Arrays

    [a.filter((x, index) => f(x, index))] and [a.map((x, index) => ...)]. *)
Section arrays.
Context {A B : Type}.

Fixpoint filter_from (index : nat) (f : A → nat → bool) (a : list A) : list A :=
  match a with
  | [] => []
  | x :: a' =>
      if f x index then x :: filter_from (S index) f a'
      else filter_from (S index) f a'
  end.

Definition Array_filter (f : A → nat → bool) (a : list A) : list A :=
  filter_from 0 f a.

Definition Array_map (f : A → nat → B) (a : list A) : list B :=
  imap (λ index x, f x index) a.

End arrays.

(** *** Array.prototype.sort

    The host's sort, with a comparison function that may throw. ECMA-262
    fixes the result for a consistent comparison function (sorted and
    stable) and leaves the order to the implementation otherwise. The model
    is the stable insertion sort that engines run on short arrays: each
    element in turn is moved left past the elements that compare greater
    than it. [prefix] is the sorted part a[0..i-1], read from a[i-1] down
    to a[0]. *)
Section sort.
Context {A : Type} (comparefn : A → A → completion Z).

Fixpoint insert (element : A) (prefix : list A) : completion (list A) :=
  match prefix with
  | [] => Normal [element]
  | tmp :: rest =>
      order ← comparefn tmp element;
      if 0 <? order
      then r ← insert element rest; Normal (tmp :: r)
      else Normal (element :: prefix)
  end.

Fixpoint insert_all (prefix : list A) (todo : list A) : completion (list A) :=
  match todo with
  | [] => Normal prefix
  | element :: todo' =>
      prefix' ← insert element prefix; insert_all prefix' todo'
  end.

Definition Array_sort (a : list A) : completion (list A) :=
  r ← insert_all [] a; Normal (reverse r).

(** [x] may stand before [y]: the comparison returns and is not positive. *)
Definition before (x y : A) : Prop :=
  ∃ order, comparefn x y = Normal order ∧ order ≤ 0.

(** What makes the comparison function consistent on the elements of [a]:
    it returns on every two of them, a positive comparison is matched by
    the opposite one being allowed, and [before] is transitive. *)
Definition returns_on (a : list A) : Prop :=
  ∀ x y, x ∈ a → y ∈ a → ∃ order, comparefn x y = Normal order.

Definition reversible_on (a : list A) : Prop :=
  ∀ x y order, x ∈ a → y ∈ a →
    comparefn x y = Normal order → 0 < order → before y x.

Definition transitive_on (a : list A) : Prop :=
  ∀ x y z, x ∈ a → y ∈ a → z ∈ a → before x y → before y z → before x z.

End sort.

(** *** Set

    A Set keeps its elements in insertion order, each once. It is held as
    the list of its elements; [Set_new] is [new Set(iterable)]. *)
Section set.
Context {K : Type} `{!EqDecision K}.

Definition Set_has (s : list K) (k : K) : bool := bool_decide (k ∈ s).

Definition Set_add (s : list K) (k : K) : list K :=
  if Set_has s k then s else s ++ [k].

Definition Set_delete (s : list K) (k : K) : list K :=
  filter (λ x, x ≠ k) s.

Definition Set_size (s : list K) : nat := length s.

Definition Set_new (iterable : list K) : list K := foldl Set_add [] iterable.

End set.

(** *** The store of arrays

    Arrays are objects with identity. [spread] is [[...a]], a new array
    with the elements of [a]; [sort_in_place] is [a.sort(comparefn)], which
    sorts the array [a] itself and returns it. A throwing comparison leaves
    the array as it was. *)
Definition loc := nat.

Section store.
Context {A : Type}.

Definition spread (a : loc) (σ : gmap loc (list A)) : loc * gmap loc (list A) :=
  let l := fresh (dom σ) in (l, <[l := default [] (σ !! a)]> σ).

Definition sort_in_place (comparefn : A → A → completion Z) (a : loc)
    (σ : gmap loc (list A)) : completion loc * gmap loc (list A) :=
  match Array_sort comparefn (default [] (σ !! a)) with
  | Normal sorted => (Normal a, <[a := sorted]> σ)
  | Throw e => (Throw e, σ)
  end.

End store.

(** *** A runtime for the examples

    [decimal_StringToNumber] reads what StringToNumber reads on optional
    white space around an optionally signed run of decimal digits, and on
    the empty string. The examples use no other numeric string. *)
Definition is_white_space (c : Ascii.ascii) : bool :=
  let n := Ascii.nat_of_ascii c in
  bool_decide ((9 ≤ n ≤ 13)%nat ∨ n = 32%nat ∨ n = 160%nat).

Definition digit_of (c : Ascii.ascii) : option Z :=
  let n := Z.of_nat (Ascii.nat_of_ascii c) in
  if (48 <=? n) && (n <=? 57) then Some (n - 48) else None.

Fixpoint skip_white_space (s : string) : string :=
  match s with
  | String c s' => if is_white_space c then skip_white_space s' else s
  | EmptyString => s
  end.

Definition trim (s : string) : string :=
  String.rev (skip_white_space (String.rev (skip_white_space s))).

Fixpoint digits (acc : Z) (s : string) : number :=
  match s with
  | EmptyString => Num acc
  | String c s' =>
      match digit_of c with
      | Some d => digits (10 * acc + d) s'
      | None => NaN
      end
  end.

Definition unsigned_decimal (s : string) : number :=
  match s with
  | EmptyString => NaN
  | _ => digits 0 s
  end.

Definition negate (n : number) : number :=
  match n with
  | NaN => NaN
  | Num z => Num (- z)
  end.

Definition decimal_StringToNumber (s : string) : number :=
  match trim s with
  | EmptyString => Num 0
  | String c s' as t =>
      let n := Ascii.nat_of_ascii c in
      if bool_decide (n = 43%nat) then unsigned_decimal s'
      else if bool_decide (n = 45%nat) then negate (unsigned_decimal s')
      else unsigned_decimal t
  end.

#[global] Instance decimal_runtime : Runtime :=
  {| StringToNumber := decimal_StringToNumber |}.

End JS.

(** ** InputField *)

Module InputField.
Import JS.

Inductive InputType := text | password | email.

#[global] Instance InputType_eq_dec : EqDecision InputType.
Proof. solve_decision. Defined.

(** The part of a change event the widget builds itself:
    [{ target: { value } }]. *)
Record ChangeEvent := { target_value : string }.

Inductive call := Call (f : callback) (e : ChangeEvent).

(** [variant] and [size] only select class names and are left out. *)
Record InputFieldProps := {
  value : string;
  onChange : option callback;
  label : option string;
  placeholder : option string;
  helperText : option string;
  errorMessage : option string;
  disabled : bool;
  invalid : bool;
  type : InputType;
  showClearButton : bool;
  loading : bool
}.

Record state := { showPassword : bool; isFocused : bool }.

(** [useState(false)] twice *)
Definition initial : state := {| showPassword := false; isFocused := false |}.

(** Truthiness of a string and of an optional string prop *)
Definition truthy (s : string) : bool := negb (String.eqb s "").
Definition provided (s : option string) : bool := from_option truthy false s.

Definition inputType (p : InputFieldProps) (st : state) : InputType :=
  if bool_decide (type p = password) && showPassword st then text else type p.

Definition handleClear (p : InputFieldProps) : list call :=
  match onChange p with
  | Some f => [Call f {| target_value := "" |}]
  | None => []
  end.

(** What the returned markup depends on. [toggle] is the visibility button
    when rendered, with the state it shows; [ring] is the focus ring. *)
Record view := {
  labelShown : option string;
  input_type : InputType;
  input_value : string;
  input_disabled : bool;
  aria_invalid : bool;
  ring : bool;
  loader : bool;
  toggle : option bool;
  clearButton : bool;
  errorShown : option string;
  helperShown : option string
}.

Definition render (p : InputFieldProps) (st : state) : view := {|
  labelShown := if provided (label p) then label p else None;
  input_type := inputType p st;
  input_value := value p;
  input_disabled := disabled p;
  aria_invalid := invalid p || provided (errorMessage p);
  ring := isFocused st;
  loader := loading p;
  toggle :=
    if negb (loading p) && bool_decide (type p = password)
    then Some (showPassword st) else None;
  clearButton :=
    negb (loading p) && showClearButton p && truthy (value p)
    && negb (bool_decide (type p = password));
  errorShown := if provided (errorMessage p) then errorMessage p else None;
  helperShown :=
    if provided (helperText p) && negb (provided (errorMessage p))
    then helperText p else None
|}.

Inductive event :=
| Focus
| Blur
| Input (s : string)
| ClickToggle
| ClickClear.

(** One event on the rendered markup: the next state and the calls made. An
    event on an element that is not rendered does nothing. *)
Definition dispatch (p : InputFieldProps) (st : state) (e : event) : state * list call :=
  match e with
  | Focus => ({| showPassword := showPassword st; isFocused := true |}, [])
  | Blur => ({| showPassword := showPassword st; isFocused := false |}, [])
  | Input s =>
      (st, match onChange p with
           | Some f => [Call f {| target_value := s |}]
           | None => []
           end)
  | ClickToggle =>
      match toggle (render p st) with
      | Some _ =>
          ({| showPassword := negb (showPassword st); isFocused := isFocused st |}, [])
      | None => (st, [])
      end
  | ClickClear =>
      if clearButton (render p st) then (st, handleClear p) else (st, [])
  end.

Fixpoint run (p : InputFieldProps) (st : state) (events : list event) : state * list call :=
  match events with
  | [] => (st, [])
  | e :: events' =>
      let '(st', calls) := dispatch p st e in
      let '(st'', calls') := run p st' events' in
      (st'', calls ++ calls')
  end.

(** What the widget shows after [history], from a fresh mount *)
Definition output (p : InputFieldProps) (history : list event) : view :=
  render p (run p initial history).1.

(** *** Attributes of the input outside the view

    The right padding of the input, [pr-12] or [pr-4], and
    [aria-describedby]; the ids of the message paragraphs a view holds. *)
Definition padding_right (p : InputFieldProps) : string :=
  if bool_decide (type p = password) || showClearButton p then "12" else "4".

Definition aria_describedby (p : InputFieldProps) : option string :=
  if provided (helperText p) then Some "helper-text"
  else if provided (errorMessage p) then Some "error-text"
  else None.

Definition message_ids (v : view) : list string :=
  match errorShown v with Some _ => ["error-text"] | None => [] end
  ++ match helperShown v with Some _ => ["helper-text"] | None => [] end.

End InputField.

(** ** DataTable *)

Module DataTable.
Import JS.

(** The result of [keyExtractor], an element of the selection Set: a value
    (declared as [string | number]). *)
Abbreviation rowKey := value.

Inductive Direction := asc | desc.

#[global] Instance Direction_eq_dec : EqDecision Direction.
Proof. solve_decision. Defined.

Module SortConfig.
Record t := { key : string; direction : Direction }.
End SortConfig.

Module Column.
Record t := {
  key : string;
  title : string;
  dataIndex : string;
  sortable : bool;
  render : option callback
}.
End Column.

Inductive call := Call (f : callback) (selectedRows : list object).

(** [keyExtractor] is applied to a record and its index, as the default
    [(record, index) => index] needs. *)
Record DataTableProps := {
  data : list object;
  columns : list Column.t;
  loading : bool;
  selectable : bool;
  onRowSelect : option callback;
  keyExtractor : object → nat → rowKey
}.

Definition default_keyExtractor (record : object) (index : nat) : rowKey :=
  VNumber (Num (Z.of_nat index)).

Record state := {
  selectedRows : list rowKey;
  sortConfig : option SortConfig.t
}.

(** [useState(new Set())] and [useState(null)] *)
Definition initial : state := {| selectedRows := Set_new []; sortConfig := None |}.

Section widget.
Context `{!Runtime}.

(** The comparison function passed to [sort] *)
Definition comparator (sortConfig : SortConfig.t) (a b : object) : completion Z :=
  let aValue := get a (SortConfig.key sortConfig) in
  let bValue := get b (SortConfig.key sortConfig) in
  below ← less_than aValue bValue;
  if (below : bool)
  then Normal (if bool_decide (SortConfig.direction sortConfig = asc) then -1 else 1)
  else
    above ← greater_than aValue bValue;
    if (above : bool)
    then Normal (if bool_decide (SortConfig.direction sortConfig = asc) then 1 else -1)
    else Normal 0.

(** The body of the [useMemo], on the elements of [data] *)
Definition sortedData (data : list object) (sortConfig : option SortConfig.t)
    : completion (list object) :=
  match sortConfig with
  | None => Normal data
  | Some c => Array_sort (comparator c) data
  end.

(** The same body on the store: [data] is the array the host passed,
    [[...data]] a new one, and [sort] works on that one in place. *)
Definition sortedData_in (σ : gmap loc (list object)) (data : loc)
    (sortConfig : option SortConfig.t) : completion loc * gmap loc (list object) :=
  match sortConfig with
  | None => (Normal data, σ)
  | Some c =>
      let '(copy, σ') := spread data σ in
      sort_in_place (comparator c) copy σ'
  end.

Definition handleSort (st : state) (columnKey : string) : state :=
  let newDirection :=
    match sortConfig st with
    | Some c =>
        if bool_decide (SortConfig.key c = columnKey)
           && bool_decide (SortConfig.direction c = asc)
        then desc else asc
    | None => asc
    end in
  {| selectedRows := selectedRows st;
     sortConfig := Some {| SortConfig.key := columnKey;
                           SortConfig.direction := newDirection |} |}.

(** [onRowSelect?.(rows)] *)
Definition notify (p : DataTableProps) (rows : list object) : list call :=
  match onRowSelect p with
  | Some f => [Call f rows]
  | None => []
  end.

(** The filter reads [data[index]]; [index] is always in range there. *)
Definition handleRowSelect (p : DataTableProps) (st : state)
    (rowKey : rowKey) (checked : bool) : state * list call :=
  let newSelectedRows := Set_new (selectedRows st) in
  let newSelectedRows :=
    if checked then Set_add newSelectedRows rowKey
    else Set_delete newSelectedRows rowKey in
  ({| selectedRows := newSelectedRows; sortConfig := sortConfig st |},
   match onRowSelect p with
   | Some f =>
       let selectedData :=
         Array_filter
           (λ _ index,
              match data p !! index with
              | Some record => Set_has newSelectedRows (keyExtractor p record index)
              | None => false
              end)
           (data p) in
       [Call f selectedData]
   | None => []
   end).

Definition handleSelectAll (p : DataTableProps) (st : state) (checked : bool)
    : state * list call :=
  if checked then
    let allKeys :=
      Set_new (Array_map (λ record index, keyExtractor p record index) (data p)) in
    ({| selectedRows := allKeys; sortConfig := sortConfig st |}, notify p (data p))
  else
    ({| selectedRows := Set_new []; sortConfig := sortConfig st |}, notify p []).

Definition isAllSelected (p : DataTableProps) (st : state) : bool :=
  bool_decide (Set_size (selectedRows st) = length (data p))
  && bool_decide (0 < length (data p))%nat.

Definition isIndeterminate (p : DataTableProps) (st : state) : bool :=
  bool_decide (0 < Set_size (selectedRows st))%nat
  && bool_decide (Set_size (selectedRows st) < length (data p))%nat.

(** *** The returned markup *)

Inductive indicator := ChevronUp | ChevronDown | ChevronUpFaded.

(** A body cell: the column's [render] applied to the field and the record,
    or [String(arg)] with [arg] the field or ['-']. *)
Inductive cell :=
| Rendered (f : callback) (v : value) (record : object)
| Text (arg : value).

Record th := { th_title : string; sortButton : option indicator }.

Record tr := {
  tr_key : rowKey;
  isSelected : bool;
  checkbox : bool;
  cells : list cell
}.

Record headCheckbox := { checked : bool; indeterminate : bool }.

Inductive view :=
| LoadingView
| NoDataView
| TableView (selectAll : option headCheckbox) (head : list th) (body : list tr).

Definition head_cell (st : state) (column : Column.t) : th :=
  {| th_title := Column.title column;
     sortButton :=
       if Column.sortable column then
         Some match sortConfig st with
              | Some c =>
                  if bool_decide (SortConfig.key c = Column.key column)
                  then if bool_decide (SortConfig.direction c = asc)
                       then ChevronUp else ChevronDown
                  else ChevronUpFaded
              | None => ChevronUpFaded
              end
       else None |}.

Definition body_cell (record : object) (column : Column.t) : cell :=
  match Column.render column with
  | Some f => Rendered f (get record (Column.dataIndex column)) record
  | None => Text (or_else (get record (Column.dataIndex column)) (VString "-"))
  end.

Definition body_row (p : DataTableProps) (st : state) (record : object) (index : nat) : tr :=
  let rowKey := keyExtractor p record index in
  {| tr_key := rowKey;
     isSelected := Set_has (selectedRows st) rowKey;
     checkbox := selectable p;
     cells := body_cell record <$> columns p |}.

(** The component function: the memo is computed first, then the early
    returns for [loading] and for no data. *)
Definition render (p : DataTableProps) (st : state) : completion view :=
  rows ← sortedData (data p) (sortConfig st);
  Normal
    (if loading p then LoadingView
     else if bool_decide (length (data p) = 0%nat) then NoDataView
     else TableView
            (if selectable p
             then Some {| checked := isAllSelected p st;
                          indeterminate := isIndeterminate p st |}
             else None)
            (head_cell st <$> columns p)
            (Array_map (body_row p st) rows)).

(** *** Interaction

    A click on the sort button of a column, on the checkbox of a displayed
    row, or on the header checkbox. A checkbox reports the opposite of what
    it shows. A click on an element that is not rendered does nothing. *)
Inductive event :=
| ClickSort (column : nat)
| ClickRow (index : nat)
| ClickSelectAll.

Definition dispatch (p : DataTableProps) (st : state) (v : view) (e : event)
    : state * list call :=
  match v with
  | TableView selectAll _ body =>
      match e with
      | ClickSort j =>
          match columns p !! j with
          | Some column =>
              if Column.sortable column
              then (handleSort st (Column.key column), [])
              else (st, [])
          | None => (st, [])
          end
      | ClickRow i =>
          match body !! i with
          | Some row =>
              if checkbox row
              then handleRowSelect p st (tr_key row) (negb (isSelected row))
              else (st, [])
          | None => (st, [])
          end
      | ClickSelectAll =>
          match selectAll with
          | Some box => handleSelectAll p st (negb (checked box))
          | None => (st, [])
          end
      end
  | LoadingView | NoDataView => (st, [])
  end.

(** The widget from state [st] through [events]: every render on the way,
    the last one included, and the calls made. *)
Fixpoint run (p : DataTableProps) (st : state) (events : list event)
    : completion (state * list call) :=
  v ← render p st;
  match events with
  | [] => Normal (st, [])
  | e :: events' =>
      let '(st', calls) := dispatch p st v e in
      '(st'', calls') ← run p st' events';
      Normal (st'', calls ++ calls')
  end.

(** What the widget shows after [history], from a fresh mount *)
Definition output (p : DataTableProps) (history : list event) : completion view :=
  '(st, _) ← run p initial history; render p st.

(** *** Conditions on the data used in the statements *)

Definition is_symbol (v : value) : bool :=
  match v with
  | VSymbol _ => true
  | _ => false
  end.

(** [a > b] is false, [a < b] is false *)
Definition not_greater (a b : value) : bool :=
  match greater_than a b with
  | Normal false => true
  | _ => false
  end.

Definition not_less (a b : value) : bool :=
  match less_than a b with
  | Normal false => true
  | _ => false
  end.

(** The values can be put in order: none is a symbol, and "not greater
    than" is transitive among them. *)
Definition orderable (vs : list value) : bool :=
  forallb (λ v, negb (is_symbol v)) vs
  && forallb (λ a, forallb (λ b, forallb (λ c,
       implb (not_greater a b && not_greater b c) (not_greater a c)) vs) vs) vs.

Definition column_values (k : string) (data : list object) : list value :=
  (λ record, get record k) <$> data.


(** Two values tie: neither is greater than the other. *)
Definition tied (a b : value) : bool := not_greater a b && not_greater b a.

End widget.

End DataTable.


(** ** The demo page: the table [ComponentDemo] mounts *)

Module Demo.
Import JS DataTable.

Definition user (id : Z) (name email role status : string) : object :=
  {[ "id" := VNumber (Num id); "name" := VString name;
     "email" := VString email; "role" := VString role;
     "status" := VString status ]}.

Definition userData : list object := [
  user 1 "John Doe" "john@example.com" "Admin" "Active";
  user 2 "Jane Smith" "jane@example.com" "User" "Active";
  user 3 "Bob Johnson" "bob@example.com" "Editor" "Inactive";
  user 4 "Alice Brown" "alice@example.com" "User" "Active";
  user 5 "Charlie Wilson" "charlie@example.com" "Admin" "Active"
].

(** Tags of the two functions the page passes *)
Definition status_badge : callback := 0%nat.
Definition setSelectedUsers : callback := 1%nat.

Definition columns : list Column.t := [
  {| Column.key := "name"; Column.title := "Name"; Column.dataIndex := "name";
     Column.sortable := true; Column.render := None |};
  {| Column.key := "email"; Column.title := "Email"; Column.dataIndex := "email";
     Column.sortable := true; Column.render := None |};
  {| Column.key := "role"; Column.title := "Role"; Column.dataIndex := "role";
     Column.sortable := true; Column.render := None |};
  {| Column.key := "status"; Column.title := "Status"; Column.dataIndex := "status";
     Column.sortable := false; Column.render := Some status_badge |}
].

Definition props (tableLoading : bool) : DataTableProps := {|
  DataTable.data := userData;
  DataTable.columns := columns;
  loading := tableLoading;
  selectable := true;
  onRowSelect := Some setSelectedUsers;
  keyExtractor := λ record _, get record "id"
|}.

(** The first two inputs of the page *)
Definition setInputValue : callback := 2%nat.
Definition setPasswordValue : callback := 3%nat.

Definition username_field (inputValue : string) : InputField.InputFieldProps := {|
  InputField.value := inputValue;
  InputField.onChange := Some setInputValue;
  InputField.label := Some "Username";
  InputField.placeholder := Some "Enter your username";
  InputField.helperText := Some "Choose a unique username";
  InputField.errorMessage := None;
  InputField.disabled := false;
  InputField.invalid := false;
  InputField.type := InputField.text;
  InputField.showClearButton := true;
  InputField.loading := false
|}.

Definition password_field (passwordValue : string) : InputField.InputFieldProps := {|
  InputField.value := passwordValue;
  InputField.onChange := Some setPasswordValue;
  InputField.label := Some "Password";
  InputField.placeholder := Some "Enter your password";
  InputField.helperText := Some "Must be at least 8 characters";
  InputField.errorMessage := None;
  InputField.disabled := false;
  InputField.invalid := false;
  InputField.type := InputField.password;
  InputField.showClearButton := false;
  InputField.loading := false
|}.

End Demo.

(** ** Small inputs used in the examples *)

Module Examples.
Import JS DataTable.

Definition row (v : value) : object := {[ "k" := v ]}.

Definition by_k (d : Direction) : SortConfig.t :=
  {| SortConfig.key := "k"; SortConfig.direction := d |}.

(** The middle record lacks the field. *)
Definition missing_field : list object :=
  [row (VNumber (Num 2)); ∅; row (VNumber (Num 1))].

(** ["100" < "20"] as strings, ["20" < 50] and [50 < "100"] as numbers. *)
Definition mixed_types : list object :=
  [row (VString "100"); row (VString "20"); row (VNumber (Num 50))].


Definition column_k : Column.t :=
  {| Column.key := "k"; Column.title := "K"; Column.dataIndex := "k";
     Column.sortable := true; Column.render := None |}.

Definition notified : callback := 4%nat.

Definition table (rows : list object) : DataTableProps := {|
  data := rows;
  columns := [column_k];
  loading := false;
  selectable := true;
  onRowSelect := Some notified;
  keyExtractor := default_keyExtractor
|}.

Definition by_name : SortConfig.t :=
  {| SortConfig.key := "name"; SortConfig.direction := asc |}.



End Examples.

(** * Properties *)

(** ** Array.prototype.sort with a comparison function that returns *)

Section Array_sort_facts.
Import JS.
Context {A : Type} (comparefn : A → A → completion Z).

Implicit Types (a : list A) (prefix todo : list A) (element : A).

Local Ltac in_list :=
  rewrite ?elem_of_app, ?elem_of_cons, ?elem_of_app, ?elem_of_cons; tauto.

Lemma insert_returns element prefix :
  (∀ tmp, tmp ∈ prefix → ∃ order, comparefn tmp element = Normal order) →
  ∃ moved kept,
    prefix = moved ++ kept
    ∧ insert comparefn element prefix = Normal (moved ++ element :: kept)
    ∧ (∀ tmp, tmp ∈ moved → ∃ order, comparefn tmp element = Normal order ∧ 0 < order)
    ∧ (∀ tmp rest, kept = tmp :: rest → before comparefn tmp element).
Proof.
  induction prefix as [|tmp rest IH]; intros Hret.
  - exists [], []. split_and!; [done|done| |discriminate].
    by intros tmp ?%elem_of_nil.
  - destruct (Hret tmp) as [order Horder]; [apply list_elem_of_here|].
    cbn [insert]. rewrite Horder. cbn.
    destruct (0 <? order) eqn:Hpos.
    + destruct IH as (moved & kept & -> & Hins & Hmoved & Hkept).
      { intros t Ht. by apply Hret, list_elem_of_further. }
      exists (tmp :: moved), kept. rewrite Hins. cbn.
      split_and!; [done|done| |done].
      intros t [->|Ht]%elem_of_cons; [|by apply Hmoved].
      exists order. split; [done|lia].
    + exists [], (tmp :: rest). split_and!; [done|done| |].
      { by intros t ?%elem_of_nil. }
      intros t r [= <- <-]. exists order. split; [done|lia].
Qed.

Lemma StronglySorted_reverse (R : relation A) a :
  StronglySorted (flip R) a → StronglySorted R (reverse a).
Proof.
  induction 1 as [|x a _ IH Hall]; [constructor|].
  rewrite reverse_cons. apply StronglySorted_app_2; [|done|repeat constructor].
  intros x1 x2 Hx1 ->%list_elem_of_singleton.
  rewrite elem_of_reverse in Hx1. rewrite Forall_forall in Hall. by apply Hall.
Qed.

Lemma insert_all_returns prefix todo :
  returns_on comparefn (prefix ++ todo) →
  ∃ r, insert_all comparefn prefix todo = Normal r
       ∧ r ≡ₚ prefix ++ todo
       ∧ (reversible_on comparefn (prefix ++ todo) →
          transitive_on comparefn (prefix ++ todo) →
          StronglySorted (flip (before comparefn)) prefix →
          StronglySorted (flip (before comparefn)) r).
Proof.
  revert prefix. induction todo as [|element todo IH]; intros prefix Hret.
  - exists prefix. rewrite app_nil_r. done.
  - destruct (insert_returns element prefix)
      as (moved & kept & -> & Hins & Hmoved & Hkept).
    { intros tmp Htmp. apply Hret; in_list. }
    assert (Hp : (moved ++ element :: kept) ++ todo
                 ≡ₚ (moved ++ kept) ++ element :: todo).
    { rewrite <-!app_assoc. apply Permutation_app_head. cbn.
      apply Permutation_middle. }
    assert (Hsame : ∀ x, x ∈ (moved ++ element :: kept) ++ todo
                         ↔ x ∈ (moved ++ kept) ++ element :: todo).
    { intros x. by rewrite Hp. }
    destruct (IH (moved ++ element :: kept)) as (r & Hr & Hperm & Hsorted).
    { intros x y Hx%Hsame Hy%Hsame. by apply Hret. }
    exists r. cbn [insert_all]. rewrite Hins. cbn. split; [done|]. split.
    { by rewrite Hperm. }
    intros Hopp Htrans Hprefix. apply Hsorted.
    { intros x y order Hx%Hsame Hy%Hsame. by apply Hopp. }
    { intros x y z Hx%Hsame Hy%Hsame Hz%Hsame. by apply Htrans. }
    apply StronglySorted_app in Hprefix as (Hcross & Hm & Hk).
    apply StronglySorted_app_2; [|done|].
    + intros x1 x2 Hx1 [->|Hx2]%elem_of_cons; [|by apply Hcross].
      destruct (Hmoved x1 Hx1) as (order & Horder & Hpos).
      eapply Hopp; [| |done|done]; in_list.
    + constructor; [done|]. destruct kept as [|tmp rest]; [constructor|].
      specialize (Hkept tmp rest eq_refl).
      constructor; [done|].
      apply StronglySorted_cons in Hk as [Hall _].
      rewrite Forall_forall in Hall. apply Forall_forall. intros u Hu.
      eapply (Htrans u tmp element); [in_list..| |done].
      by apply Hall.
Qed.

(** With a comparison function that returns on the elements, [sort]
    returns a permutation; with one that is consistent on them as well, the
    permutation is in order. *)
Lemma Array_sort_returns a :
  returns_on comparefn a →
  ∃ r, Array_sort comparefn a = Normal r
       ∧ r ≡ₚ a
       ∧ (reversible_on comparefn a → transitive_on comparefn a →
          StronglySorted (before comparefn) r).
Proof.
  intros Hret. destruct (insert_all_returns [] a Hret) as (r & Hr & Hperm & Hsorted).
  exists (reverse r). unfold Array_sort. rewrite Hr. cbn. split; [done|]. split.
  - by rewrite reverse_Permutation.
  - intros Hopp Htrans. apply StronglySorted_reverse, Hsorted; [done..|constructor].
Qed.

End Array_sort_facts.

(** ** The comparison of values and the comparison function of the table *)

Section comparison_facts.
Import JS DataTable.
Context `{!Runtime}.

Implicit Types (x y : value) (a b : object) (c : SortConfig.t).

Lemma IsLessThan_returns x y :
  is_symbol x = false → is_symbol y = false → ∃ r, IsLessThan x y = Normal r.
Proof. destruct x, y; cbn; intros; try discriminate; eauto. Qed.

Lemma IsLessThan_no_symbol x y r :
  IsLessThan x y = Normal r → is_symbol x = false ∧ is_symbol y = false.
Proof. destruct x, y; cbn; intros; try discriminate; done. Qed.

Lemma ltb_asym (s1 s2 : string) : String.ltb s1 s2 = true → String.ltb s2 s1 = false.
Proof.
  unfold String.ltb. rewrite (String.compare_antisym s2 s1).
  by destruct (String.compare s1 s2).
Qed.

(** [x < y] and [y < x] are never both true. *)
Lemma IsLessThan_asym x y :
  IsLessThan x y = Normal (Some true) → IsLessThan y x ≠ Normal (Some true).
Proof.
  unfold IsLessThan.
  destruct x as [| |bx|nx|sx|dx], y as [| |by_|ny|sy|dy]; cbn;
    try discriminate;
    try (intros [= Hlt]; apply ltb_asym in Hlt; congruence);
    repeat match goal with
           | |- context [StringToNumber ?s] => destruct (StringToNumber s)
           | n : number |- _ => destruct n
           | b : bool |- _ => destruct b
           end; cbn; try discriminate;
    intros [= Hlt] [= Hgt]; lia.
Qed.

(** The comparison function in terms of the two comparisons it makes. *)
Lemma comparator_unfold c a b r1 r2 :
  IsLessThan (get a (SortConfig.key c)) (get b (SortConfig.key c)) = Normal r1 →
  IsLessThan (get b (SortConfig.key c)) (get a (SortConfig.key c)) = Normal r2 →
  comparator c a b =
    Normal (if default false r1
            then if bool_decide (SortConfig.direction c = asc) then -1 else 1
            else if default false r2
                 then if bool_decide (SortConfig.direction c = asc) then 1 else -1
                 else 0).
Proof.
  intros H1 H2. unfold comparator, less_than, greater_than. rewrite H1. cbn.
  destruct (default false r1); [done|]. rewrite H2. cbn.
  by destruct (default false r2).
Qed.

Lemma comparator_returns c a b :
  is_symbol (get a (SortConfig.key c)) = false →
  is_symbol (get b (SortConfig.key c)) = false →
  ∃ order, comparator c a b = Normal order
           ∧ (order = -1 ∨ order = 0 ∨ order = 1).
Proof.
  intros Ha Hb.
  destruct (IsLessThan_returns _ _ Ha Hb) as [r1 H1].
  destruct (IsLessThan_returns _ _ Hb Ha) as [r2 H2].
  rewrite (comparator_unfold _ _ _ _ _ H1 H2).
  eexists; split; [done|].
  destruct (default false r1), (default false r2),
    (bool_decide (SortConfig.direction c = asc)); auto.
Qed.

(** The relation the sorted rows are in: under ['asc'] no row is greater
    than a later one, under ['desc'] no row is less than a later one. *)
Lemma comparator_before c a b :
  before (comparator c) a b →
  (if bool_decide (SortConfig.direction c = asc) then not_greater else not_less)
    (get a (SortConfig.key c)) (get b (SortConfig.key c)) = true.
Proof.
  intros (order & Hcmp & Hle).
  assert (∃ r1, IsLessThan (get a (SortConfig.key c)) (get b (SortConfig.key c))
                = Normal r1) as [r1 H1].
  { unfold comparator, less_than in Hcmp.
    destruct (IsLessThan (get a _) (get b _)); [eauto|discriminate]. }
  destruct (IsLessThan_no_symbol _ _ _ H1) as [Ha Hb].
  destruct (IsLessThan_returns _ _ Hb Ha) as [r2 H2].
  rewrite (comparator_unfold _ _ _ _ _ H1 H2) in Hcmp.
  assert (Hasym : r1 = Some true → r2 ≠ Some true).
  { intros -> ->. by eapply IsLessThan_asym in H1. }
  destruct (bool_decide (SortConfig.direction c = asc));
    unfold not_greater, not_less, greater_than, less_than; rewrite ?H1, ?H2;
    destruct r1 as [[]|], r2 as [[]|];
    cbn in *; try done; try (injection Hcmp as <-; lia).
  all: by destruct Hasym.
Qed.

Lemma before_comparator c a b :
  is_symbol (get a (SortConfig.key c)) = false →
  is_symbol (get b (SortConfig.key c)) = false →
  (if bool_decide (SortConfig.direction c = asc)
   then not_greater (get a (SortConfig.key c)) (get b (SortConfig.key c))
   else not_greater (get b (SortConfig.key c)) (get a (SortConfig.key c))) = true →
  before (comparator c) a b.
Proof.
  intros Ha Hb.
  destruct (IsLessThan_returns _ _ Ha Hb) as [r1 H1].
  destruct (IsLessThan_returns _ _ Hb Ha) as [r2 H2].
  unfold before. rewrite (comparator_unfold _ _ _ _ _ H1 H2).
  unfold not_greater, greater_than. rewrite ?H1, ?H2.
  destruct r1 as [[]|], r2 as [[]|], (bool_decide (SortConfig.direction c = asc));
    cbn; try discriminate; intros _; eexists; (split; [done|lia]).
Qed.

Lemma comparator_opposite c a b order :
  comparator c a b = Normal order → 0 < order → before (comparator c) b a.
Proof.
  intros Hcmp Hpos.
  assert (∃ r1, IsLessThan (get a (SortConfig.key c)) (get b (SortConfig.key c))
                = Normal r1) as [r1 H1].
  { unfold comparator, less_than in Hcmp.
    destruct (IsLessThan (get a _) (get b _)); [eauto|discriminate]. }
  destruct (IsLessThan_no_symbol _ _ _ H1) as [Ha Hb].
  destruct (IsLessThan_returns _ _ Hb Ha) as [r2 H2].
  rewrite (comparator_unfold _ _ _ _ _ H1 H2) in Hcmp.
  unfold before. rewrite (comparator_unfold _ _ _ _ _ H2 H1).
  assert (Hasym : r1 = Some true → r2 ≠ Some true).
  { intros -> ->. by eapply IsLessThan_asym in H1. }
  destruct r1 as [[]|], r2 as [[]|], (bool_decide (SortConfig.direction c = asc));
    cbn in *; try (injection Hcmp as <-; lia);
    try (by destruct Hasym);
    eexists; (split; [done|lia]).
Qed.

End comparison_facts.

(** ** Values that can be put in order *)

Section orderable_facts.
Import JS DataTable.
Context `{!Runtime}.

Lemma compare_as_OT (s t : string) :
  String.compare s t = OrdersEx.String_as_OT.compare s t.
Proof.
  revert t. induction s as [|c s IH]; intros [|d t]; cbn; [done..|].
  by rewrite IH.
Qed.

(** If [u < s] then [t < s] or [u < t]. *)
Lemma ltb_cotransitive (u t s : string) :
  String.ltb u s = true → String.ltb t s = true ∨ String.ltb u t = true.
Proof.
  unfold String.ltb.
  rewrite (compare_as_OT u s), (compare_as_OT t s), (compare_as_OT u t).
  destruct (OrdersEx.String_as_OT.compare u s) eqn:Hus; try discriminate.
  intros _.
  destruct (OrdersEx.String_as_OT.compare_spec t s) as [->|Hts|Hst]; [|by left|].
  - right. by rewrite Hus.
  - right.
    assert (OrdersEx.String_as_OT.lt u t) as Hut.
    { etransitivity; [exact Hus|exact Hst]. }
    unfold OrdersEx.String_as_OT.lt in Hut. by rewrite Hut.
Qed.

Lemma orderable_intro (vs : list value) :
  (∀ v, v ∈ vs → is_symbol v = false) →
  (∀ x y z, x ∈ vs → y ∈ vs → z ∈ vs →
     not_greater x y = true → not_greater y z = true → not_greater x z = true) →
  orderable vs = true.
Proof.
  intros Hsym Htrans. unfold orderable.
  apply andb_true_iff. split; apply forallb_forall.
  - intros v Hv%list_elem_of_In. by rewrite Hsym.
  - intros x Hx%list_elem_of_In. apply forallb_forall.
    intros y Hy%list_elem_of_In. apply forallb_forall.
    intros z Hz%list_elem_of_In.
    destruct (not_greater x y) eqn:Hxy, (not_greater y z) eqn:Hyz; try done.
    cbn. eauto.
Qed.

(** Numbers other than NaN can be put in order, and so can strings. *)
Lemma orderable_numbers (vs : list value) :
  Forall (λ v, ∃ z, v = VNumber (Num z)) vs → orderable vs = true.
Proof.
  rewrite Forall_forall. intros Hnum. apply orderable_intro.
  - intros v [z ->]%Hnum. done.
  - intros x y z [a ->]%Hnum [b ->]%Hnum [c ->]%Hnum. cbn.
    destruct (Z.ltb_spec b a), (Z.ltb_spec c b), (Z.ltb_spec c a); try done. lia.
Qed.

Lemma orderable_strings (vs : list value) :
  Forall (λ v, ∃ s, v = VString s) vs → orderable vs = true.
Proof.
  rewrite Forall_forall. intros Hstr. apply orderable_intro.
  - intros v [s ->]%Hstr. done.
  - intros x y z [s ->]%Hstr [t ->]%Hstr [u ->]%Hstr. cbn.
    destruct (String.ltb u s) eqn:Hus; [|done].
    destruct (ltb_cotransitive u t s Hus) as [-> | ->]; [done|].
    by destruct (String.ltb t s).
Qed.

End orderable_facts.

(** ** The sorted view *)

Section sorted_view.
Import JS DataTable.
Context `{!Runtime}.

Lemma StronglySorted_impl {A} (R1 R2 : relation A) (l : list A) :
  (∀ x y, R1 x y → R2 x y) → StronglySorted R1 l → StronglySorted R2 l.
Proof.
  intros HR. induction 1 as [|x l _ IH Hall]; constructor; [done|].
  eapply Forall_impl; [done|]. auto.
Qed.

Lemma orderable_spec (vs : list value) :
  orderable vs = true →
  (∀ v, v ∈ vs → is_symbol v = false)
  ∧ (∀ x y z, x ∈ vs → y ∈ vs → z ∈ vs →
       not_greater x y = true → not_greater y z = true → not_greater x z = true).
Proof.
  unfold orderable. rewrite andb_true_iff, !forallb_forall.
  intros [Hsym Htrans]. split.
  - intros v Hv%list_elem_of_In. apply Hsym in Hv. by destruct (is_symbol v).
  - intros x y z Hx%list_elem_of_In Hy%list_elem_of_In Hz%list_elem_of_In Hxy Hyz.
    specialize (Htrans x Hx). rewrite forallb_forall in Htrans.
    specialize (Htrans y Hy). rewrite forallb_forall in Htrans.
    specialize (Htrans z Hz). by rewrite Hxy, Hyz in Htrans.
Qed.

Lemma column_values_elem (k : string) (data : list object) (a : object) :
  a ∈ data → get a k ∈ column_values k data.
Proof. intros Ha. unfold column_values. apply list_elem_of_fmap. eauto. Qed.

(** On values that can be put in order the comparison function is
    consistent, whatever the direction. *)
Lemma comparator_consistent (c : SortConfig.t) (data : list object) :
  orderable (column_values (SortConfig.key c) data) = true →
  returns_on (comparator c) data
  ∧ reversible_on (comparator c) data
  ∧ transitive_on (comparator c) data.
Proof.
  intros [Hsym Htrans]%orderable_spec.
  assert (Hns : ∀ a, a ∈ data → is_symbol (get a (SortConfig.key c)) = false).
  { intros a Ha. by apply Hsym, column_values_elem. }
  split_and!.
  - intros x y Hx Hy.
    destruct (comparator_returns c x y) as (order & Horder & _); eauto.
  - intros x y order _ _. apply comparator_opposite.
  - intros x y z Hx Hy Hz Hxy%comparator_before Hyz%comparator_before.
    apply before_comparator; [by apply Hns..|].
    destruct (bool_decide (SortConfig.direction c = asc)).
    + eapply (Htrans _ (get y (SortConfig.key c))); eauto using column_values_elem.
    + unfold not_less, less_than in Hxy, Hyz.
      eapply (Htrans _ (get y (SortConfig.key c))); eauto using column_values_elem.
Qed.

(** C1 (as amended). When no sort configuration is active the rows of the
    table body are [data] in its order. With an active configuration of key
    [k], and field-[k] values that can be put in order (none is a symbol
    and "not greater than" is transitive among them, as among numbers other
    than NaN or among strings), the rows are a permutation of [data] in
    which, under ['asc'], no row's field [k] is greater than that of a later
    row and, under ['desc'], none is less. These rows are the ones the
    table body maps over when the widget is not loading and [data] is not
    empty. *)
Theorem sortedData_ordered (p : DataTableProps) (st : state) :
  match sortConfig st with
  | Some c => orderable (column_values (SortConfig.key c) (data p)) = true
  | None => True
  end →
  ∃ rows,
    sortedData (data p) (sortConfig st) = Normal rows
    ∧ match sortConfig st with
      | None => rows = data p
      | Some c =>
          rows ≡ₚ data p
          ∧ StronglySorted
              (λ a b,
                 (if bool_decide (SortConfig.direction c = asc)
                  then not_greater else not_less)
                   (get a (SortConfig.key c)) (get b (SortConfig.key c)) = true)
              rows
      end
    ∧ (loading p = false → data p ≠ [] →
       ∃ selectAll head,
         render p st
         = Normal (TableView selectAll head (Array_map (body_row p st) rows))).
Proof.
  intros Hord.
  assert (∃ rows,
    sortedData (data p) (sortConfig st) = Normal rows
    ∧ match sortConfig st with
      | None => rows = data p
      | Some c =>
          rows ≡ₚ data p
          ∧ StronglySorted
              (λ a b,
                 (if bool_decide (SortConfig.direction c = asc)
                  then not_greater else not_less)
                   (get a (SortConfig.key c)) (get b (SortConfig.key c)) = true)
              rows
      end) as (rows & Hrows & Hspec).
  { destruct (sortConfig st) as [c|]; [|by exists (data p)].
    destruct (comparator_consistent c (data p) Hord) as (Hret & Hrev & Htrans).
    destruct (Array_sort_returns (comparator c) (data p) Hret)
      as (rows & Hrows & Hperm & Hsorted).
    exists rows. split_and!; [done|done|].
    eapply StronglySorted_impl; [|by apply Hsorted].
    intros a b. apply comparator_before. }
  exists rows. split_and!; [done|done|].
  intros Hload Hdata. unfold render. rewrite Hrows, Hload. cbn.
  rewrite bool_decide_eq_false_2; [eauto|].
  by destruct (data p).
Qed.

End sorted_view.

Section sorted_view_examples.
Import JS DataTable Examples.

(** The demo table sorted by name. *)
Lemma sortedData_ordered_witness :
  ∃ rows,
    sortedData Demo.userData (Some by_name) = Normal rows
    ∧ rows ≡ₚ Demo.userData
    ∧ (λ record, get record "name") <$> rows
      = [VString "Alice Brown"; VString "Bob Johnson"; VString "Charlie Wilson";
         VString "Jane Smith"; VString "John Doe"].
Proof.
  destruct (sortedData_ordered (Demo.props false)
              {| selectedRows := []; sortConfig := Some by_name |})
    as (rows & Hrows & [Hperm _] & _).
  { vm_compute. reflexivity. }
  exists rows. split_and!; [done|done|].
  cbn in Hrows. vm_compute in Hrows. injection Hrows as <-.
  vm_compute. reflexivity.
Defined.

(** C1 as stated fails on a record that lacks the sort key: the field is
    undefined, every comparison with it returns 0, and 2 stays before 1. *)
Lemma sortedData_missing_field_unordered :
  ¬ ∀ (data : list object) (c : SortConfig.t),
      ∃ rows,
        sortedData data (Some c) = Normal rows
        ∧ rows ≡ₚ data
        ∧ StronglySorted
            (λ a b,
               (if bool_decide (SortConfig.direction c = asc)
                then not_greater else not_less)
                 (get a (SortConfig.key c)) (get b (SortConfig.key c)) = true)
            rows.
Proof.
  intros Hall.
  destruct (Hall missing_field (by_k asc)) as (rows & Hrows & _ & Hsorted).
  assert (sortedData missing_field (Some (by_k asc)) = Normal missing_field)
    as Hrun by (vm_compute; reflexivity).
  rewrite Hrun in Hrows. injection Hrows as <-.
  apply StronglySorted_cons in Hsorted as [Hfirst _].
  apply Forall_cons in Hfirst as [_ Hfirst].
  apply Forall_cons in Hfirst as [Hfirst _].
  vm_compute in Hfirst. discriminate.
Qed.

(** With values of mixed types there may be no order at all: no
    arrangement of these three rows is in ascending order, whatever the
    sort does. *)
Example mixed_types_no_order (rows : list object) :
  rows ≡ₚ mixed_types →
  ¬ StronglySorted
      (λ a b, not_greater (get a "k") (get b "k") = true) rows.
Proof.
  assert (Forall
            (λ rows, ¬ StronglySorted
                         (λ a b, not_greater (get a "k") (get b "k") = true) rows)
            (permutations mixed_types)) as Hnone.
  { refine (bool_decide_unpack _ _). vm_compute. exact I. }
  rewrite Forall_forall in Hnone.
  intros Hperm. symmetry in Hperm.
  apply permutations_Permutation in Hperm. by apply Hnone.
Qed.

End sorted_view_examples.

(** ** Totality *)

Section totality.
Import JS DataTable.
Context `{!Runtime}.





End totality.

Section totality_examples.
Import JS DataTable Examples.



End totality_examples.

(** ** The array passed by the host *)

Section store_facts.
Import JS DataTable.
Context `{!Runtime}.

Implicit Types (σ : gmap loc (list object)) (data : loc).

Lemma spread_fresh σ data rows :
  σ !! data = Some rows →
  ∃ copy, spread data σ = (copy, <[copy := rows]> σ) ∧ σ !! copy = None.
Proof.
  intros Hdata. exists (fresh (dom σ)). unfold spread. rewrite Hdata. cbn.
  split; [done|]. apply not_elem_of_dom, is_fresh.
Qed.

(** The view computed on the store holds what [sortedData] computes on the
    elements, in the array [data] itself without a configuration and in a
    new array with one. *)
Lemma sortedData_in_contents σ data rows (sortConfig : option SortConfig.t) :
  σ !! data = Some rows →
  match sortedData rows sortConfig with
  | Normal sorted =>
      ∃ view, (sortedData_in σ data sortConfig).1 = Normal view
              ∧ (sortedData_in σ data sortConfig).2 !! view = Some sorted
              ∧ (view = data ↔ sortConfig = None)
  | Throw e => (sortedData_in σ data sortConfig).1 = Throw e
  end.
Proof.
  intros Hdata. destruct sortConfig as [c|].
  - unfold sortedData_in, sortedData.
    destruct (spread_fresh σ data rows Hdata) as (copy & -> & Hfresh).
    unfold sort_in_place. rewrite lookup_insert_eq.
    change (default [] (Some rows)) with rows.
    destruct (Array_sort (comparator c) rows) as [sorted|e]; cbn; [|done].
    exists copy. split_and!.
    + done.
    + apply lookup_insert_eq.
    + split; [|done]. intros ->. congruence.
  - exists data. done.
Qed.

(** C8. Computing the sorted view leaves the array passed by the host as it
    was: the same elements in the same order, with and without a sort
    configuration, and also when a comparison throws. *)
Theorem sortedData_in_preserves_data σ data rows (sortConfig : option SortConfig.t) :
  σ !! data = Some rows →
  (sortedData_in σ data sortConfig).2 !! data = Some rows.
Proof.
  intros Hdata. destruct sortConfig as [c|]; [|done]. unfold sortedData_in.
  destruct (spread_fresh σ data rows Hdata) as (copy & -> & Hfresh).
  assert (copy ≠ data) by congruence.
  unfold sort_in_place. rewrite lookup_insert_eq.
  change (default [] (Some rows)) with rows.
  destruct (Array_sort (comparator c) rows); cbn;
    by rewrite ?lookup_insert_ne by done.
Qed.

End store_facts.

Section store_examples.
Import JS DataTable Examples.

Lemma sortedData_in_preserves_data_witness :
  (sortedData_in {[ 7%nat := Demo.userData ]} 7%nat (Some by_name)).2 !! 7%nat
  = Some Demo.userData.
Proof.
  apply (sortedData_in_preserves_data {[ 7%nat := Demo.userData ]}).
  vm_compute. reflexivity.
Defined.

End store_examples.

(** ** Set *)

Section Set_facts.
Import JS.
Context {K : Type} `{!EqDecision K}.

Implicit Types (s : list K) (k x : K).

Lemma Set_has_true s k : Set_has s k = true ↔ k ∈ s.
Proof. unfold Set_has. apply bool_decide_eq_true. Qed.

Lemma Set_has_ext s1 s2 k : (k ∈ s1 ↔ k ∈ s2) → Set_has s1 k = Set_has s2 k.
Proof. intros Hiff. unfold Set_has. by apply bool_decide_ext. Qed.

Lemma elem_of_Set_add s k x : x ∈ Set_add s k ↔ x ∈ s ∨ x = k.
Proof.
  unfold Set_add. destruct (Set_has s k) eqn:Hhas.
  - apply Set_has_true in Hhas. split; [auto|]. by intros [?| ->].
  - rewrite elem_of_app, list_elem_of_singleton. done.
Qed.

Lemma NoDup_Set_add s k : NoDup s → NoDup (Set_add s k).
Proof.
  intros Hs. unfold Set_add. destruct (Set_has s k) eqn:Hhas; [done|].
  apply NoDup_app. split_and!; [done| |apply NoDup_singleton].
  intros x Hx ->%list_elem_of_singleton.
  apply Set_has_true in Hx. congruence.
Qed.

Lemma elem_of_Set_delete s k x : x ∈ Set_delete s k ↔ x ∈ s ∧ x ≠ k.
Proof. unfold Set_delete. rewrite list_elem_of_filter. tauto. Qed.

Lemma NoDup_Set_delete s k : NoDup s → NoDup (Set_delete s k).
Proof. apply NoDup_filter. Qed.

Lemma foldl_Set_add s (l : list K) :
  (∀ x, x ∈ foldl Set_add s l ↔ x ∈ s ∨ x ∈ l)
  ∧ (NoDup s → NoDup (foldl Set_add s l)).
Proof.
  revert s. induction l as [|k l IH]; intros s; cbn.
  - split; [|done]. intros x. rewrite elem_of_nil. tauto.
  - destruct (IH (Set_add s k)) as [Helem Hnodup]. split.
    + intros x. rewrite Helem, elem_of_Set_add, elem_of_cons. tauto.
    + intros Hs. by apply Hnodup, NoDup_Set_add.
Qed.

(** [new Set(iterable)] holds the elements of the iterable, each once. *)
Lemma elem_of_Set_new (l : list K) x : x ∈ Set_new l ↔ x ∈ l.
Proof.
  unfold Set_new. rewrite (proj1 (foldl_Set_add [] l)), elem_of_nil. tauto.
Qed.

Lemma NoDup_Set_new (l : list K) : NoDup (Set_new l).
Proof. apply foldl_Set_add, NoDup_nil_2. Qed.

(** A copy of a Set has the same elements in the same order. *)
Lemma foldl_Set_add_NoDup s (l : list K) :
  NoDup (s ++ l) → foldl Set_add s l = s ++ l.
Proof.
  revert s. induction l as [|k l IH]; intros s Hnd; cbn.
  - by rewrite app_nil_r.
  - assert (Set_add s k = s ++ [k]) as ->.
    { unfold Set_add. destruct (Set_has s k) eqn:Hhas; [|done].
      apply Set_has_true in Hhas. apply NoDup_app in Hnd as (_ & Hnd & _).
      destruct (Hnd k Hhas). apply list_elem_of_here. }
    rewrite IH; rewrite <-app_assoc; done.
Qed.

Lemma Set_new_copy s : NoDup s → Set_new s = s.
Proof. intros Hs. unfold Set_new. by rewrite foldl_Set_add_NoDup. Qed.

End Set_facts.

(** ** Arrays *)

Section Array_facts.
Import JS.
Context {A : Type}.

Implicit Types (f : A → nat → bool) (a : list A).

Lemma filter_from_spec index f a :
  filter_from index f a
  = (filter (λ ir, f ir.2 ir.1 = true) (imap (λ i x, ((index + i)%nat, x)) a)).*2.
Proof.
  revert index. induction a as [|x a IH]; intros index; [done|].
  cbn [filter_from imap]. rewrite filter_cons. cbn.
  rewrite Nat.add_0_r. rewrite (IH (S index)).
  erewrite (imap_ext _ (λ i x, ((index + S i)%nat, x)));
    [|intros; f_equal; lia].
  unfold compose. by destruct (f x index) eqn:Hf; case_decide.
Qed.

(** The records [filter] keeps are those on which the function is true, in
    the order of the array. *)
Lemma Array_filter_spec f a :
  Array_filter f a
  = (filter (λ ir, f ir.2 ir.1 = true) (imap (λ i x, (i, x)) a)).*2.
Proof. apply filter_from_spec. Qed.

(** Reading [a[index]] in the function gives the element itself. *)
Lemma filter_from_lookup (g : A → nat → bool) (before_ a : list A) :
  filter_from (length before_)
    (λ _ index, match (before_ ++ a) !! index with
                | Some x => g x index
                | None => false
                end) a
  = filter_from (length before_) g a.
Proof.
  revert before_. induction a as [|x a IH]; intros before_; [done|].
  cbn [filter_from]. rewrite list_lookup_middle by done.
  specialize (IH (before_ ++ [x])).
  rewrite length_app, Nat.add_1_r, <-app_assoc in IH. cbn in IH.
  by rewrite IH.
Qed.

Lemma Array_filter_lookup (g : A → nat → bool) a :
  Array_filter
    (λ _ index, match a !! index with Some x => g x index | None => false end) a
  = Array_filter g a.
Proof. apply (filter_from_lookup g []). Qed.

Lemma elem_of_Array_map {B} (g : A → nat → B) a (y : B) :
  y ∈ Array_map g a ↔ ∃ index x, a !! index = Some x ∧ g x index = y.
Proof.
  unfold Array_map. rewrite elem_of_lookup_imap.
  split; intros (index & x & H1 & H2); exists index, x; by split.
Qed.

End Array_facts.

(** ** Selection *)

Section selection.
Import JS DataTable.
Context `{!Runtime}.

Implicit Types (p : DataTableProps) (st : state) (rowKey : rowKey).


(** C3. Checking row [r] makes the selection set S ∪ {r}, unchecking it
    makes it S ∖ {r}; membership of any other key is unchanged, and the set
    holds no key twice. *)
Theorem handleRowSelect_selection p st (r : rowKey) :
  let S := selectedRows st in
  let checked := selectedRows (handleRowSelect p st r true).1 in
  let unchecked := selectedRows (handleRowSelect p st r false).1 in
  (∀ k, k ∈ checked ↔ k ∈ S ∨ k = r)
  ∧ (∀ k, k ∈ unchecked ↔ k ∈ S ∧ k ≠ r)
  ∧ (∀ k, k ≠ r →
       Set_has checked k = Set_has S k ∧ Set_has unchecked k = Set_has S k)
  ∧ NoDup checked
  ∧ NoDup unchecked.
Proof.
  cbn.
  assert (Hadd : ∀ k, k ∈ Set_add (Set_new (selectedRows st)) r
                      ↔ k ∈ selectedRows st ∨ k = r).
  { intros k. by rewrite elem_of_Set_add, elem_of_Set_new. }
  assert (Hdel : ∀ k, k ∈ Set_delete (Set_new (selectedRows st)) r
                      ↔ k ∈ selectedRows st ∧ k ≠ r).
  { intros k. by rewrite elem_of_Set_delete, elem_of_Set_new. }
  split_and!; [done|done| | |].
  - intros k Hk. split; apply Set_has_ext; rewrite ?Hadd, ?Hdel; tauto.
  - apply NoDup_Set_add, NoDup_Set_new.
  - apply NoDup_Set_delete, NoDup_Set_new.
Qed.

(** C4. Checking the header checkbox makes the selection set the set of the
    keys extracted from the rows of [data] and calls [onRowSelect], when
    passed, with the array [data]; unchecking it makes the set empty and
    calls [onRowSelect] with an empty array. *)
Theorem handleSelectAll_selection p st :
  (∀ k, k ∈ selectedRows (handleSelectAll p st true).1
        ↔ ∃ index record,
            data p !! index = Some record ∧ keyExtractor p record index = k)
  ∧ NoDup (selectedRows (handleSelectAll p st true).1)
  ∧ (handleSelectAll p st true).2
    = match onRowSelect p with Some f => [Call f (data p)] | None => [] end
  ∧ selectedRows (handleSelectAll p st false).1 = []
  ∧ (handleSelectAll p st false).2
    = match onRowSelect p with Some f => [Call f []] | None => [] end.
Proof.
  cbn. split_and!; try done.
  - intros k. by rewrite elem_of_Set_new, elem_of_Array_map.
  - apply NoDup_Set_new.
Qed.


Lemma dispatch_sortConfig p st (v : view) (e : event) :
  is_Some (sortConfig st) → is_Some (sortConfig (dispatch p st v e).1).
Proof.
  intros Hcfg. destruct v as [| |selectAll head body]; [done..|].
  destruct e as [j|i|]; cbn.
  - destruct (columns p !! j) as [column|]; [|done].
    destruct (Column.sortable column); cbn; eauto.
  - destruct (body !! i) as [row|]; [|done].
    by destruct (checkbox row).
  - destruct selectAll as [box|]; [|done].
    unfold handleSelectAll. by destruct (negb (checked box)).
Qed.

(** An invariant of the dispatch steps holds after every history that
    returns. *)
Lemma run_invariant (I : state → Prop) p st (events : list event) st'
    (calls : list call) :
  (∀ st v e, I st → I (dispatch p st v e).1) →
  run p st events = Normal (st', calls) → I st → I st'.
Proof.
  intros Hstep. revert st calls.
  induction events as [|e events IH]; intros st calls; cbn [run].
  - destruct (render p st); cbn; [|done]. by intros [= <- <-].
  - destruct (render p st) as [v|]; cbn; [|done].
    intros Hrun HI. specialize (Hstep st v e HI).
    destruct (dispatch p st v e) as [st1 calls1]. cbn in *.
    destruct (run p st1 events) as [[st2 calls2]|] eqn:Hrun1; cbn in Hrun; [|done].
    injection Hrun as <- <-. by eapply IH.
Qed.

End selection.

Section selection_examples.
Import JS DataTable Examples.

Example select_first_row :
  run (Demo.props false) initial [ClickRow 0%nat]
  = Normal ({| selectedRows := [VNumber (Num 1)]; sortConfig := None |},
            [Call Demo.setSelectedUsers (take 1 Demo.userData)]).
Proof. vm_compute. reflexivity. Qed.

Example select_then_unselect :
  run (Demo.props false) initial [ClickRow 1%nat; ClickRow 3%nat; ClickRow 1%nat]
  = Normal ({| selectedRows := [VNumber (Num 4)]; sortConfig := None |},
            [Call Demo.setSelectedUsers (take 1 (drop 1 Demo.userData));
             Call Demo.setSelectedUsers
               (take 1 (drop 1 Demo.userData) ++ take 1 (drop 3 Demo.userData));
             Call Demo.setSelectedUsers (take 1 (drop 3 Demo.userData))]).
Proof. vm_compute. reflexivity. Qed.

Example select_all_then_none :
  run (Demo.props false) initial [ClickSelectAll; ClickSelectAll]
  = Normal ({| selectedRows := []; sortConfig := None |},
            [Call Demo.setSelectedUsers Demo.userData;
             Call Demo.setSelectedUsers []]).
Proof. vm_compute. reflexivity. Qed.

(** With the default [keyExtractor] the key of a displayed row is its
    position in the sorted view, while the records passed to
    [onRowSelect] are found by position in [data]. *)
Example default_key_is_a_position :
  run (table [row (VNumber (Num 2)); row (VNumber (Num 1))]) initial
      [ClickSort 0%nat; ClickRow 0%nat]
  = Normal ({| selectedRows := [VNumber (Num 0)]; sortConfig := Some (by_k asc) |},
            [Call notified [row (VNumber (Num 2))]]).
Proof. vm_compute. reflexivity. Qed.

End selection_examples.

(** ** The sort state *)

Section sort_state.
Import JS DataTable.
Context `{!Runtime}.

(** C5. A sort on the column whose key is the current sort key, while the
    direction is ['asc'], sets that key with ['desc']; a sort on any other
    column, or while the direction is ['desc'], or without a sort
    configuration, sets the column's key with ['asc']. No interaction
    resets a sort configuration once set. *)
Theorem handleSort_direction (st : state) (columnKey : string) :
  (∀ c, sortConfig st = Some c →
        SortConfig.key c = columnKey → SortConfig.direction c = asc →
        sortConfig (handleSort st columnKey)
        = Some {| SortConfig.key := columnKey; SortConfig.direction := desc |})
  ∧ (sortConfig st = None
     ∨ (∃ c, sortConfig st = Some c
             ∧ (SortConfig.key c ≠ columnKey ∨ SortConfig.direction c = desc)) →
     sortConfig (handleSort st columnKey)
     = Some {| SortConfig.key := columnKey; SortConfig.direction := asc |})
  ∧ (∀ p (v : view) (e : event),
       is_Some (sortConfig st) → is_Some (sortConfig (dispatch p st v e).1))
  ∧ (∀ p (events : list event) st' (calls : list call),
       is_Some (sortConfig st) →
       run p st events = Normal (st', calls) → is_Some (sortConfig st')).
Proof.
  split_and!.
  - intros c Hc Hkey Hdir. unfold handleSort. rewrite Hc. cbn.
    by rewrite !bool_decide_eq_true_2.
  - intros [Hnone|(c & Hc & Hother)]; unfold handleSort.
    + by rewrite Hnone.
    + rewrite Hc. cbn. destruct Hother as [Hkey|Hdir].
      * by rewrite (bool_decide_eq_false_2 _ Hkey).
      * rewrite Hdir. by rewrite andb_false_r.
  - intros p v e. apply dispatch_sortConfig.
  - intros p events st' calls Hcfg Hrun.
    eapply (run_invariant (λ st, is_Some (sortConfig st))); [|done..].
    intros. by apply dispatch_sortConfig.
Qed.


End sort_state.

Section sort_state_examples.
Import JS DataTable Examples.

Lemma handleSort_direction_witness :
  sortConfig (handleSort {| selectedRows := []; sortConfig := Some by_name |} "name")
  = Some {| SortConfig.key := "name"; SortConfig.direction := desc |}
  ∧ sortConfig (handleSort initial "name") = Some by_name
  ∧ is_Some (sortConfig
       (dispatch (Demo.props false)
          {| selectedRows := []; sortConfig := Some by_name |}
          NoDataView ClickSelectAll).1)
  ∧ ∃ st' calls,
      run (Demo.props false) {| selectedRows := []; sortConfig := Some by_name |}
          [ClickRow 0%nat; ClickSelectAll; ClickSelectAll] = Normal (st', calls)
      ∧ is_Some (sortConfig st').
Proof.
  destruct (handleSort_direction
              {| selectedRows := []; sortConfig := Some by_name |} "name")
    as (Hdesc & _ & Hstep & Hrun).
  destruct (handleSort_direction initial "name") as (_ & Hasc & _).
  split_and!.
  - by apply (Hdesc by_name).
  - apply Hasc. by left.
  - apply Hstep. by exists by_name.
  - destruct (run (Demo.props false)
                {| selectedRows := []; sortConfig := Some by_name |}
                [ClickRow 0%nat; ClickSelectAll; ClickSelectAll])
      as [[st' calls]|] eqn:Hhistory; [|by vm_compute in Hhistory].
    exists st', calls. split; [done|].
    eapply Hrun; [|done]. by exists by_name.
Defined.



End sort_state_examples.

(** ** InputField *)

Section input_field.
Import InputField.

Implicit Types (p : InputFieldProps) (st : state).

Lemma toggle_rendered p st :
  type p = password → loading p = false →
  toggle (render p st) = Some (showPassword st).
Proof. intros Htype Hload. cbn. by rewrite Hload, Htype. Qed.

Lemma ClickToggle_step p st :
  type p = password → loading p = false →
  dispatch p st ClickToggle
  = ({| showPassword := negb (showPassword st); isFocused := isFocused st |}, []).
Proof.
  intros Htype Hload. unfold dispatch. by rewrite toggle_rendered.
Qed.

Lemma ClickToggle_twice p st :
  type p = password → loading p = false →
  (run p st [ClickToggle; ClickToggle]).1 = st.
Proof.
  intros Htype Hload. cbn [run]. rewrite !ClickToggle_step by done. cbn.
  destruct st as [shown focused]. cbn. by rewrite negb_involutive.
Qed.

Lemma run_app p st (h1 h2 : list event) :
  (run p st (h1 ++ h2)).1 = (run p (run p st h1).1 h2).1.
Proof.
  revert st. induction h1 as [|e h1 IH]; intros st; cbn [run app].
  - done.
  - destruct (dispatch p st e) as [st1 calls1].
    specialize (IH st1).
    destruct (run p st1 (h1 ++ h2)) as [st2 calls2],
             (run p st1 h1) as [st3 calls3]. by cbn in *.
Qed.

(** C9. For an input of type ['password'] that is not loading, the input
    is of type ['password'] at first, one click on the visibility button
    makes it of type ['text'], two clicks leave the state as it was, and so
    does any even number of them: the input is then of type ['password']
    again. *)
Theorem password_toggle_round_trip p :
  type p = password → loading p = false →
  inputType p initial = password
  ∧ inputType p (run p initial [ClickToggle]).1 = text
  ∧ (∀ st, (run p st [ClickToggle; ClickToggle]).1 = st)
  ∧ (∀ st n, (run p st (replicate (2 * n) ClickToggle)).1 = st)
  ∧ (∀ n, inputType p (run p initial (replicate (2 * n) ClickToggle)).1 = password).
Proof.
  intros Htype Hload.
  assert (Heven : ∀ st n, (run p st (replicate (2 * n) ClickToggle)).1 = st).
  { intros st n. induction n as [|n IH]; [done|].
    replace (2 * S n)%nat with (2 + 2 * n)%nat by lia.
    rewrite replicate_add, run_app.
    change (replicate 2 ClickToggle) with [ClickToggle; ClickToggle].
    by rewrite ClickToggle_twice. }
  split_and!.
  - unfold inputType. by rewrite Htype.
  - cbn [run]. rewrite ClickToggle_step by done. unfold inputType. by rewrite Htype.
  - intros st. by apply ClickToggle_twice.
  - done.
  - intros n. rewrite Heven. unfold inputType. by rewrite Htype.
Qed.

(** C10. With a change handler, the clear button calls it once, with an
    event whose value is the empty string; without one it calls nothing.
    The button is rendered exactly when clearing is enabled, the value is
    not empty, the input is not loading and its type is not ['password'];
    a click on it changes no state. *)
Theorem handleClear_calls p st :
  (∀ f, onChange p = Some f → handleClear p = [Call f {| target_value := "" |}])
  ∧ (onChange p = None → handleClear p = [])
  ∧ (clearButton (render p st) = true
     ↔ showClearButton p = true ∧ value p ≠ "" ∧ loading p = false
       ∧ type p ≠ password)
  ∧ (clearButton (render p st) = true →
     run p st [ClickClear] = (st, handleClear p))
  ∧ (clearButton (render p st) = false → run p st [ClickClear] = (st, [])).
Proof.
  split_and!.
  - intros f Hf. unfold handleClear. by rewrite Hf.
  - intros Hnone. unfold handleClear. by rewrite Hnone.
  - cbn. unfold truthy. rewrite !andb_true_iff, !negb_true_iff.
    rewrite bool_decide_eq_false, String.eqb_neq. tauto.
  - intros Hshown. cbn [run dispatch]. rewrite Hshown. by rewrite app_nil_r.
  - intros Hhidden. cbn [run dispatch]. by rewrite Hhidden.
Qed.

End input_field.

Section input_field_examples.
Import InputField Examples.

Lemma password_toggle_round_trip_witness :
  inputType (Demo.password_field "secret") initial = password
  ∧ inputType (Demo.password_field "secret")
      (run (Demo.password_field "secret") initial [ClickToggle]).1 = text
  ∧ inputType (Demo.password_field "secret")
      (run (Demo.password_field "secret") initial (replicate 4 ClickToggle)).1 = password.
Proof.
  destruct (password_toggle_round_trip (Demo.password_field "secret"))
    as (Hfirst & Hone & _ & _ & Heven); [reflexivity..|].
  split_and!; [done|done|]. apply (Heven 2%nat).
Defined.

Lemma handleClear_calls_witness :
  handleClear (Demo.username_field "abc")
  = [Call Demo.setInputValue {| target_value := "" |}]
  ∧ run (Demo.username_field "abc") initial [ClickClear]
    = (initial, [Call Demo.setInputValue {| target_value := "" |}])
  ∧ run (Demo.username_field "") initial [ClickClear] = (initial, [])
  ∧ run (Demo.password_field "secret") initial [ClickClear] = (initial, []).
Proof.
  destruct (handleClear_calls (Demo.username_field "abc") initial)
    as (Hsome & _ & _ & Hshown & _).
  destruct (handleClear_calls (Demo.username_field "") initial)
    as (_ & _ & _ & _ & Hempty).
  destruct (handleClear_calls (Demo.password_field "secret") initial)
    as (_ & _ & _ & _ & Hpassword).
  split_and!.
  - by apply Hsome.
  - rewrite Hshown by reflexivity. by rewrite (Hsome Demo.setInputValue).
  - by apply Hempty.
  - by apply Hpassword.
Defined.

End input_field_examples.

(** * Further properties *)

(** ** Array.prototype.sort: what it keeps *)

Section Array_sort_more.
Import JS.
Context {A : Type} (comparefn : A → A → completion Z).

Implicit Types (a : list A) (prefix todo : list A) (element : A).

Lemma insert_Permutation element prefix r :
  insert comparefn element prefix = Normal r → r ≡ₚ element :: prefix.
Proof.
  revert r. induction prefix as [|tmp rest IH]; intros r; cbn [insert].
  - by intros [= <-].
  - destruct (comparefn tmp element) as [order|]; cbn; [|done].
    destruct (0 <? order); [|by intros [= <-]].
    destruct (insert comparefn element rest) as [r'|]; cbn; [|done].
    intros [= <-]. rewrite (IH r' eq_refl). apply perm_swap.
Qed.

Lemma insert_all_Permutation prefix todo r :
  insert_all comparefn prefix todo = Normal r → r ≡ₚ prefix ++ todo.
Proof.
  revert prefix. induction todo as [|element todo IH]; intros prefix; cbn [insert_all].
  - intros [= <-]. by rewrite app_nil_r.
  - destruct (insert comparefn element prefix) as [prefix'|] eqn:Hins; cbn; [|done].
    intros Hr%IH. rewrite Hr, (insert_Permutation _ _ _ Hins).
    by rewrite <-Permutation_middle.
Qed.

(** Whenever [sort] returns, it returns a permutation. *)
Lemma Array_sort_Permutation a r :
  Array_sort comparefn a = Normal r → r ≡ₚ a.
Proof.
  unfold Array_sort.
  destruct (insert_all comparefn [] a) as [r'|] eqn:Hr'; cbn; [|done].
  intros [= <-]. rewrite reverse_Permutation.
  by apply insert_all_Permutation in Hr'.
Qed.

Lemma insert_all_ordered prefix todo :
  StronglySorted (before comparefn) (reverse prefix ++ todo) →
  insert_all comparefn prefix todo = Normal (reverse todo ++ prefix).
Proof.
  revert prefix. induction todo as [|element todo IH]; intros prefix Hsorted; [done|].
  cbn [insert_all].
  assert (insert comparefn element prefix = Normal (element :: prefix)) as ->.
  { destruct prefix as [|tmp rest]; [done|]. cbn [insert].
    assert (before comparefn tmp element) as (order & -> & Hle).
    { eapply StronglySorted_app_1_elem_of; [done| |apply list_elem_of_here].
      rewrite reverse_cons. apply elem_of_app. right. apply list_elem_of_here. }
    cbn. by rewrite (proj2 (Z.ltb_ge 0 order)). }
  change (insert_all comparefn (element :: prefix) todo
          = Normal (reverse (element :: todo) ++ prefix)).
  rewrite IH.
  - by rewrite reverse_cons, <-app_assoc.
  - by rewrite reverse_cons, <-app_assoc.
Qed.

(** An array that is in order already is returned as it is. *)
Lemma Array_sort_ordered a :
  StronglySorted (before comparefn) a → Array_sort comparefn a = Normal a.
Proof.
  intros Hsorted. unfold Array_sort. rewrite insert_all_ordered by done.
  cbn. by rewrite app_nil_r, reverse_involutive.
Qed.

(** What [insert] does when it returns: the elements it moves compare
    greater than the new one. *)
Lemma insert_Normal element prefix r :
  insert comparefn element prefix = Normal r →
  ∃ moved kept,
    prefix = moved ++ kept
    ∧ r = moved ++ element :: kept
    ∧ (∀ tmp, tmp ∈ moved → ∃ order, comparefn tmp element = Normal order ∧ 0 < order).
Proof.
  revert r. induction prefix as [|tmp rest IH]; intros r; cbn [insert].
  - intros [= <-]. exists [], []. split_and!; [done..|]. by intros tmp ?%elem_of_nil.
  - destruct (comparefn tmp element) as [order|] eqn:Horder; cbn; [|done].
    destruct (0 <? order) eqn:Hpos.
    + destruct (insert comparefn element rest) as [r'|]; cbn; [|done].
      intros [= <-]. destruct (IH r' eq_refl) as (moved & kept & -> & -> & Hmoved).
      exists (tmp :: moved), kept. split_and!; [done..|].
      intros t [->|Ht]%elem_of_cons; [|by apply Hmoved].
      exists order. split; [done|lia].
    + intros [= <-]. exists [], (tmp :: rest). split_and!; [done..|].
      by intros t ?%elem_of_nil.
Qed.

(** Elements selected by [P] that may stand before each other keep their
    order. *)
Lemma insert_filter (P : A → Prop) `{!∀ x, Decision (P x)} element prefix r :
  (∀ x, x ∈ prefix → P x → P element → before comparefn x element) →
  insert comparefn element prefix = Normal r →
  filter P (reverse r) = filter P (reverse prefix ++ [element]).
Proof.
  intros Htied (moved & kept & -> & -> & Hmoved)%insert_Normal.
  rewrite !reverse_app, reverse_cons, !filter_app, <-!app_assoc. f_equal.
  destruct (decide (P element)) as [HP|HP].
  - assert (filter P (reverse moved) = []) as ->; [|by rewrite app_nil_r].
    rewrite filter_reverse.
    assert (filter P moved = []) as ->; [|done].
    induction moved as [|m moved IH]; [done|].
    rewrite filter_cons_False.
    + apply IH.
      * intros x Hx. apply Htied. by apply list_elem_of_further.
      * intros t Ht. apply Hmoved. by apply list_elem_of_further.
    + intros Hm.
      destruct (Hmoved m) as (order & Horder & Hpos); [apply list_elem_of_here|].
      destruct (Htied m) as (order' & Horder' & Hle); [|done..|].
      * apply elem_of_app. left. apply list_elem_of_here.
      * rewrite Horder in Horder'. injection Horder' as <-. lia.
  - rewrite (filter_cons_False P element []), filter_nil by done.
    by rewrite app_nil_r.
Qed.

Lemma insert_all_filter (P : A → Prop) `{!∀ x, Decision (P x)} prefix todo r :
  (∀ x y, x ∈ prefix ++ todo → y ∈ prefix ++ todo → P x → P y →
          before comparefn x y) →
  insert_all comparefn prefix todo = Normal r →
  filter P (reverse r) = filter P (reverse prefix ++ todo).
Proof.
  revert prefix. induction todo as [|element todo IH]; intros prefix Htied;
    cbn [insert_all].
  - intros [= <-]. by rewrite app_nil_r.
  - destruct (insert comparefn element prefix) as [prefix'|] eqn:Hins; cbn; [|done].
    intros Hr. pose proof (insert_Permutation _ _ _ Hins) as Hperm.
    assert (Htied' : ∀ x y, x ∈ prefix' ++ todo → y ∈ prefix' ++ todo →
                            P x → P y → before comparefn x y).
    { intros x y Hx Hy. apply Htied.
      + revert Hx. rewrite Hperm, !elem_of_app, !elem_of_cons. tauto.
      + revert Hy. rewrite Hperm, !elem_of_app, !elem_of_cons. tauto. }
    rewrite (IH prefix' Htied' Hr), !filter_app.
    rewrite (insert_filter P element prefix prefix'); [| |done].
    + change (element :: todo) with ([element] ++ todo).
      by rewrite !filter_app, <-app_assoc.
    + intros x Hx. apply Htied; rewrite elem_of_app, elem_of_cons; auto.
Qed.

(** [sort] keeps the order of the elements selected by [P], when any two of
    them may stand before each other. *)
Lemma Array_sort_filter (P : A → Prop) `{!∀ x, Decision (P x)} a r :
  (∀ x y, x ∈ a → y ∈ a → P x → P y → before comparefn x y) →
  Array_sort comparefn a = Normal r →
  filter P r = filter P a.
Proof.
  intros Htied. unfold Array_sort.
  destruct (insert_all comparefn [] a) as [r'|] eqn:Hr'; cbn; [|done].
  intros [= <-]. by rewrite (insert_all_filter P [] a r').
Qed.

End Array_sort_more.

(** ** The sorted view: what sorting keeps *)

Section sorted_view_more.
Import JS DataTable.
Context `{!Runtime}.

Implicit Types (data rows : list object) (c : SortConfig.t).

Lemma sortedData_Permutation data (sortConfig : option SortConfig.t) rows :
  sortedData data sortConfig = Normal rows → rows ≡ₚ data.
Proof.
  destruct sortConfig as [c|]; cbn; [apply Array_sort_Permutation|].
  by intros [= <-].
Qed.

Lemma tied_not_greater (x y : value) :
  tied x y = true ↔ not_greater x y = true ∧ not_greater y x = true.
Proof. unfold tied. apply andb_true_iff. Qed.

Lemma not_greater_no_symbol (x y : value) :
  not_greater x y = true → is_symbol x = false ∧ is_symbol y = false.
Proof.
  unfold not_greater, greater_than.
  destruct (IsLessThan y x) as [r|] eqn:Hr; cbn; [|done].
  intros _. apply IsLessThan_no_symbol in Hr. tauto.
Qed.

(** Rows that tie may stand in either order. *)
Lemma tied_before c (a b : object) :
  tied (get a (SortConfig.key c)) (get b (SortConfig.key c)) = true →
  before (comparator c) a b.
Proof.
  intros [Hab Hba]%tied_not_greater.
  destruct (not_greater_no_symbol _ _ Hab) as [Ha Hb].
  apply before_comparator; [done..|].
  by destruct (bool_decide (SortConfig.direction c = asc)).
Qed.

Lemma before_tied c (a b : object) :
  before (comparator c) a b → before (comparator c) b a →
  tied (get a (SortConfig.key c)) (get b (SortConfig.key c)) = true.
Proof.
  intros Hab%comparator_before Hba%comparator_before.
  apply tied_not_greater.
  destruct (bool_decide (SortConfig.direction c = asc)); [done|].
  unfold not_less, less_than in Hab, Hba. unfold not_greater, greater_than. done.
Qed.

(** X1. Sorting is idempotent: on values that can be put in order, the
    sorted view of the sorted view, under the same configuration, is the
    sorted view. *)
Theorem sortedData_idempotent data c :
  orderable (column_values (SortConfig.key c) data) = true →
  ∃ rows,
    sortedData data (Some c) = Normal rows
    ∧ sortedData rows (Some c) = Normal rows.
Proof.
  intros Hord.
  destruct (comparator_consistent c data Hord) as (Hret & Hrev & Htrans).
  destruct (Array_sort_returns (comparator c) data Hret)
    as (rows & Hrows & _ & Hsorted).
  exists rows. split; [done|]. cbn. by apply Array_sort_ordered, Hsorted.
Qed.

Lemma StronglySorted_total {A} (R : relation A) (l : list A) :
  (∀ x y, x ∈ l → y ∈ l → R x y) → StronglySorted R l.
Proof.
  induction l as [|x l IH]; intros HR; constructor.
  - apply IH. intros y z Hy Hz. apply HR; by apply list_elem_of_further.
  - apply Forall_forall. intros y Hy.
    apply HR; [apply list_elem_of_here|by apply list_elem_of_further].
Qed.

(** X2. When the field of no row is less or greater than that of another
    (all rows hold the same value, or none has the field), sorting shows
    [data] in its own order, in both directions. *)
Theorem sortedData_all_tied data c :
  (∀ a b, a ∈ data → b ∈ data →
     tied (get a (SortConfig.key c)) (get b (SortConfig.key c)) = true) →
  sortedData data (Some c) = Normal data.
Proof.
  intros Htied. cbn. apply Array_sort_ordered, StronglySorted_total.
  intros a b Ha Hb. by apply tied_before, Htied.
Qed.

(** A column key that is a field of no record: a click on its header
    leaves the rows where they are. *)
Lemma sortedData_missing_key data c :
  Forall (λ record : object, record !! SortConfig.key c = None) data →
  sortedData data (Some c) = Normal data.
Proof.
  rewrite Forall_forall. intros Hnone. apply sortedData_all_tied.
  intros a b Ha Hb. unfold get. by rewrite (Hnone a Ha), (Hnone b Hb).
Qed.

(** X3. Sorting is stable: on values that can be put in order, the rows
    whose field ties with that of a given row stand in the view in the
    order they have in [data]. *)
Theorem sortedData_stable data c (x : object) :
  orderable (column_values (SortConfig.key c) data) = true →
  x ∈ data →
  ∃ rows,
    sortedData data (Some c) = Normal rows
    ∧ filter (λ r, tied (get x (SortConfig.key c)) (get r (SortConfig.key c)) = true) rows
      = filter (λ r, tied (get x (SortConfig.key c)) (get r (SortConfig.key c)) = true) data.
Proof.
  intros Hord Hx.
  destruct (comparator_consistent c data Hord) as (Hret & _ & _).
  destruct (Array_sort_returns (comparator c) data Hret) as (rows & Hrows & _ & _).
  exists rows. split; [done|].
  apply (Array_sort_filter (comparator c)); [|done].
  apply orderable_spec in Hord as [_ Htrans].
  intros a b Ha Hb [Hxa Hax]%tied_not_greater [Hxb Hbx]%tied_not_greater.
  apply tied_before, tied_not_greater.
  split; eapply (Htrans _ (get x (SortConfig.key c)));
    eauto using column_values_elem.
Qed.

(** X4. When no two different rows tie, the descending view is the
    ascending view reversed. *)
Theorem sortedData_desc_reverse data (k : string) :
  orderable (column_values k data) = true →
  (∀ a b, a ∈ data → b ∈ data → tied (get a k) (get b k) = true → a = b) →
  ∃ rows,
    sortedData data
      (Some {| SortConfig.key := k; SortConfig.direction := asc |}) = Normal rows
    ∧ sortedData data
        (Some {| SortConfig.key := k; SortConfig.direction := desc |})
      = Normal (reverse rows).
Proof.
  intros Hord Hties.
  set (up := {| SortConfig.key := k; SortConfig.direction := asc |}).
  set (down := {| SortConfig.key := k; SortConfig.direction := desc |}).
  destruct (comparator_consistent up data Hord) as (Hret & Hrev & Htrans).
  destruct (Array_sort_returns (comparator up) data Hret)
    as (rows & Hrows & Hperm & Hsorted).
  specialize (Hsorted Hrev Htrans).
  destruct (comparator_consistent down data Hord) as (Hret' & Hrev' & Htrans').
  destruct (Array_sort_returns (comparator down) data Hret')
    as (rows' & Hrows' & Hperm' & Hsorted').
  specialize (Hsorted' Hrev' Htrans').
  exists rows. split; [done|]. cbn. rewrite Hrows'. f_equal.
  apply (StronglySorted_unique_strong (before (comparator down))); [|done| |].
  - intros a b Ha Hb Hab Hba. apply Hties.
    + by rewrite <-Hperm'.
    + by rewrite <-Hperm, <-elem_of_reverse.
    + by apply (before_tied down).
  - apply StronglySorted_reverse.
    eapply StronglySorted_impl; [|done].
    intros a b Hab. pose proof (comparator_before up a b Hab) as Hng. cbn in Hng.
    destruct (not_greater_no_symbol _ _ Hng).
    by apply (before_comparator down).
  - by rewrite Hperm', reverse_Permutation, Hperm.
Qed.

End sorted_view_more.

(** ** Sort clicks and selection, composed *)

Section interaction_more.
Import JS DataTable.
Context `{!Runtime}.

Implicit Types (p : DataTableProps) (st : state).

(** X5. Clicks on one header alternate the direction: the second click
    gives the direction opposite to the first, the third gives the state of
    the first again. A click on a header with another key starts with
    ['asc']. A sort click leaves the selection set as it is. *)
Theorem handleSort_alternates st (k : string) :
  (∃ d, sortConfig (handleSort st k)
        = Some {| SortConfig.key := k; SortConfig.direction := d |}
        ∧ sortConfig (handleSort (handleSort st k) k)
          = Some {| SortConfig.key := k;
                    SortConfig.direction :=
                      if bool_decide (d = asc) then desc else asc |})
  ∧ handleSort (handleSort (handleSort st k) k) k = handleSort st k
  ∧ (∀ k', k' ≠ k →
       sortConfig (handleSort (handleSort st k) k')
       = Some {| SortConfig.key := k'; SortConfig.direction := asc |})
  ∧ selectedRows (handleSort st k) = selectedRows st.
Proof.
  unfold handleSort. cbn.
  destruct (sortConfig st) as [[k0 [|]]|]; cbn;
    repeat case_bool_decide; cbn; split_and!; eauto; try done;
    intros k' Hk'; by rewrite bool_decide_eq_false_2.
Qed.

Lemma filter_all {A} (P : A → Prop) `{!∀ x, Decision (P x)} (l : list A) :
  (∀ x, x ∈ l → P x) → filter P l = l.
Proof.
  induction l as [|x l IH]; intros HP; [done|].
  rewrite filter_cons_True by apply HP, list_elem_of_here.
  f_equal. apply IH. intros y Hy. by apply HP, list_elem_of_further.
Qed.

Lemma filter_none {A} (P : A → Prop) `{!∀ x, Decision (P x)} (l : list A) :
  (∀ x, x ∈ l → ¬P x) → filter P l = [].
Proof.
  induction l as [|x l IH]; intros HP; [done|].
  rewrite filter_cons_False by apply HP, list_elem_of_here.
  apply IH. intros y Hy. by apply HP, list_elem_of_further.
Qed.

Lemma snd_imap_pair {A} (l : list A) : (imap (λ index x, (index, x)) l).*2 = l.
Proof.
  rewrite fmap_imap.
  rewrite (imap_ext _ (λ _ x, x)) by done.
  induction l as [|x l IH]; [done|]. cbn. f_equal.
  by rewrite <-IH at 2.
Qed.

Lemma handleRowSelect_calls p st (r : rowKey) (chk : bool) f :
  onRowSelect p = Some f →
  (handleRowSelect p st r chk).2
  = [Call f
       (filter
          (λ ir, keyExtractor p ir.2 ir.1
                 ∈ selectedRows (handleRowSelect p st r chk).1)
          (imap (λ index record, (index, record)) (data p))).*2].
Proof.
  intros Hf. unfold handleRowSelect. cbn [fst snd selectedRows]. rewrite Hf.
  do 2 f_equal. set (S' := if chk then _ else _).
  rewrite (Array_filter_lookup (λ record index, Set_has S' (keyExtractor p record index))).
  rewrite Array_filter_spec. f_equal.
  apply list_filter_iff. intros [index record]. cbn. apply Set_has_true.
Qed.

(** What [onRowSelect] is called with, in every handler. *)
Lemma dispatch_reports p st (v : view) (e : event) f :
  onRowSelect p = Some f →
  let st' := (dispatch p st v e).1 in
  (dispatch p st v e).2 = [] ∧ selectedRows st' = selectedRows st
  ∨ (dispatch p st v e).2
    = [Call f
         (filter (λ ir, keyExtractor p ir.2 ir.1 ∈ selectedRows st')
            (imap (λ index record, (index, record)) (data p))).*2].
Proof.
  intros Hf. destruct v as [| |selectAll head body]; [by left..|].
  destruct e as [j|i|]; cbn.
  - destruct (columns p !! j) as [column|]; [|by left].
    destruct (Column.sortable column); by left.
  - destruct (body !! i) as [row|]; [|by left].
    destruct (checkbox row); [|by left]. right.
    by apply handleRowSelect_calls.
  - destruct selectAll as [box|]; [|by left]. right.
    unfold handleSelectAll, notify. rewrite Hf.
    destruct (negb (checked box)); cbn; do 2 f_equal.
    + rewrite filter_all; [by rewrite snd_imap_pair|].
      intros [index record] Hin. cbn.
      apply elem_of_lookup_imap in Hin as (i & r & [= -> ->] & Hr).
      apply elem_of_Set_new, elem_of_Array_map. eauto.
    + rewrite filter_none; [done|].
      intros [index record] _. cbn. apply not_elem_of_nil.
Qed.

End interaction_more.

Section selection_more.
Import JS DataTable.
Context `{!Runtime}.

Implicit Types (p : DataTableProps) (st : state).

(** X6. What the host last received from [onRowSelect] is the list of the
    records whose key is in the selection set the widget holds now; as long
    as it received nothing, that set is empty. *)
Theorem onRowSelect_reports_selection p f (h : list event) st (calls : list call) :
  onRowSelect p = Some f →
  run p initial h = Normal (st, calls) →
  match last calls with
  | Some reported =>
      reported
      = Call f
          (filter (λ ir, keyExtractor p ir.2 ir.1 ∈ selectedRows st)
             (imap (λ index record, (index, record)) (data p))).*2
  | None => selectedRows st = []
  end.
Proof.
  intros Hf.
  set (J := λ (st : state) (o : option call),
         match o with
         | Some reported =>
             reported
             = Call f
                 (filter (λ ir, keyExtractor p ir.2 ir.1 ∈ selectedRows st)
                    (imap (λ index record, (index, record)) (data p))).*2
         | None => selectedRows st = []
         end).
  assert (Hgen : ∀ h st0 o st calls,
            J st0 o → run p st0 h = Normal (st, calls) →
            J st (match last calls with Some c => Some c | None => o end)).
  { clear h st calls. induction h as [|e h IH]; intros st0 o st calls HJ; cbn [run].
    - destruct (render p st0); cbn; [|done]. by intros [= <- <-].
    - destruct (render p st0) as [v|]; cbn; [|done].
      pose proof (dispatch_reports p st0 v e f Hf) as Hstep.
      destruct (dispatch p st0 v e) as [st1 calls1]. cbn in Hstep.
      destruct (run p st1 h) as [[st2 calls2]|] eqn:Hrun; cbn; [|done].
      intros [= <- <-]. rewrite last_app.
      destruct Hstep as [[-> Hsame]| ->].
      + assert (J st1 o) as HJ1 by (unfold J in *; by rewrite Hsame).
        pose proof (IH st1 o st2 calls2 HJ1 Hrun) as HJ2.
        cbn. by destruct (last calls2).
      + assert (J st1 (Some (Call f
                  (filter (λ ir, keyExtractor p ir.2 ir.1 ∈ selectedRows st1)
                     (imap (λ index record, (index, record)) (data p))).*2)))
          as HJ1 by done.
        pose proof (IH st1 _ st2 calls2 HJ1 Hrun) as HJ2.
        cbn. by destruct (last calls2). }
  intros Hrun. apply (Hgen h initial None) in Hrun; [|done].
  unfold J in Hrun. by destruct (last calls).
Qed.

(** X7. With the default [keyExtractor] a checked box belongs to a
    position, not to a record: which boxes of the body are checked is the
    same whatever the sort configuration, while the records under them
    change. *)
Theorem default_key_selects_positions p st (sortConfig : option SortConfig.t)
    (rows : list object) :
  keyExtractor p = default_keyExtractor →
  sortedData (data p) sortConfig = Normal rows →
  isSelected <$> Array_map (body_row p st) rows
  = (λ index, Set_has (selectedRows st) (VNumber (Num (Z.of_nat index))))
      <$> seq 0 (length (data p)).
Proof.
  intros Hkey Hrows. apply sortedData_Permutation, Permutation_length in Hrows.
  unfold Array_map. rewrite fmap_imap, <-Hrows, <-imap_seq_0.
  apply imap_ext. intros index record _. cbn. by rewrite Hkey.
Qed.

End selection_more.

(** ** The header checkbox *)

Section header_checkbox.
Import JS DataTable.
Context `{!Runtime}.
Context (p : DataTableProps) (key : object → rowKey).
Hypothesis Hkey : ∀ record index, keyExtractor p record index = key record.
Hypothesis Hdistinct : NoDup (key <$> data p).

Implicit Types (st : state) (v : view).

(** The selection set holds keys of rows of [data], each once. *)
Let keyed st : Prop :=
  NoDup (selectedRows st) ∧ ∀ k, k ∈ selectedRows st → k ∈ key <$> data p.

Lemma render_TableView st selectAll head body :
  render p st = Normal (TableView selectAll head body) →
  ∃ rows,
    rows ≡ₚ data p
    ∧ body = Array_map (body_row p st) rows
    ∧ selectAll
      = (if selectable p
         then Some {| checked := isAllSelected p st;
                      indeterminate := isIndeterminate p st |}
         else None).
Proof.
  unfold render.
  destruct (sortedData (data p) (sortConfig st)) as [rows|] eqn:Hrows; cbn; [|done].
  destruct (loading p); [done|]. case_bool_decide; [done|].
  intros [= <- <- <-]. exists rows. by apply sortedData_Permutation in Hrows.
Qed.

Lemma dispatch_keyed st v (e : event) :
  keyed st → render p st = Normal v → keyed (dispatch p st v e).1.
Proof.
  intros [Hnd Hsub] Hrender.
  destruct v as [| |selectAll head body]; [done..|].
  apply render_TableView in Hrender as (rows & Hperm & -> & _).
  destruct e as [j|i|]; cbn.
  - destruct (columns p !! j) as [column|]; [|done].
    by destruct (Column.sortable column).
  - destruct (Array_map (body_row p st) rows !! i) as [row|] eqn:Hrow; [|done].
    destruct (checkbox row); [|done].
    unfold Array_map in Hrow. rewrite list_lookup_imap in Hrow.
    destruct (rows !! i) as [record|] eqn:Hrecord; [|done].
    injection Hrow as <-. cbn. rewrite Hkey.
    assert (key record ∈ key <$> data p) as Hin.
    { apply list_elem_of_fmap. exists record. split; [done|].
      rewrite <-Hperm. by eapply list_elem_of_lookup_2. }
    destruct (negb _); split.
    + apply NoDup_Set_add, NoDup_Set_new.
    + intros k [Hk| ->]%elem_of_Set_add; [|done]. by apply Hsub, elem_of_Set_new.
    + apply NoDup_Set_delete, NoDup_Set_new.
    + intros k [Hk _]%elem_of_Set_delete. by apply Hsub, elem_of_Set_new.
  - destruct selectAll as [box|]; [|done].
    unfold handleSelectAll. destruct (negb (checked box)); cbn; split.
    + apply NoDup_Set_new.
    + intros k (index & record & Hrecord & <-)%elem_of_Set_new%elem_of_Array_map.
      rewrite Hkey. apply list_elem_of_fmap. exists record. split; [done|].
      by eapply list_elem_of_lookup_2.
    + apply NoDup_nil_2.
    + by intros k ?%elem_of_nil.
Qed.

Lemma run_keyed st (h : list event) st' (calls : list call) :
  run p st h = Normal (st', calls) → keyed st → keyed st'.
Proof.
  revert st calls. induction h as [|e h IH]; intros st calls; cbn [run].
  - destruct (render p st); cbn; [|done]. by intros [= <- <-].
  - destruct (render p st) as [v|] eqn:Hrender; cbn; [|done].
    intros Hrun Hst. pose proof (dispatch_keyed st v e Hst Hrender) as Hst1.
    destruct (dispatch p st v e) as [st1 calls1]. cbn in *.
    destruct (run p st1 h) as [[st2 calls2]|] eqn:Hrun1; cbn in Hrun; [|done].
    injection Hrun as <- <-. by eapply IH.
Qed.

Lemma keyed_full st :
  keyed st →
  (length (selectedRows st) ≤ length (data p))%nat
  ∧ (length (selectedRows st) = length (data p)
     ↔ ∀ record, record ∈ data p → key record ∈ selectedRows st).
Proof.
  intros [Hnd Hsub].
  pose proof (NoDup_submseteq _ _ Hnd Hsub) as Hle.
  pose proof (submseteq_length _ _ Hle) as Hlen. rewrite length_fmap in Hlen.
  split; [done|]. split.
  - intros Heq record Hrecord.
    assert (selectedRows st ≡ₚ key <$> data p) as ->.
    { apply submseteq_length_Permutation; [done|]. rewrite length_fmap. lia. }
    apply list_elem_of_fmap. eauto.
  - intros Hall.
    assert (key <$> data p ⊆+ selectedRows st) as Hge.
    { apply NoDup_submseteq; [done|].
      intros k (record & -> & Hrecord)%list_elem_of_fmap. by apply Hall. }
    apply submseteq_length in Hge. rewrite length_fmap in Hge. lia.
Qed.

Lemma body_elem st (rows : list object) (row : tr) :
  rows ≡ₚ data p →
  row ∈ Array_map (body_row p st) rows →
  ∃ record, record ∈ data p
            ∧ isSelected row = Set_has (selectedRows st) (key record).
Proof.
  intros Hperm (index & record & Hrecord & <-)%elem_of_Array_map.
  exists record. cbn. rewrite Hkey. split; [|done].
  rewrite <-Hperm. by eapply list_elem_of_lookup_2.
Qed.

Lemma elem_body st (rows : list object) (record : object) :
  rows ≡ₚ data p → record ∈ data p →
  ∃ row, row ∈ Array_map (body_row p st) rows
         ∧ isSelected row = Set_has (selectedRows st) (key record).
Proof.
  intros Hperm Hrecord. rewrite <-Hperm in Hrecord.
  apply list_elem_of_lookup in Hrecord as [index Hindex].
  exists (body_row p st record index). split.
  - apply elem_of_Array_map. eauto.
  - cbn. by rewrite Hkey.
Qed.

(** X8. With a [keyExtractor] that reads the key off the record alone and
    gives different rows different keys, after every history the header
    checkbox is checked exactly when every row of the body is checked, and
    indeterminate exactly when some row is checked and some row is not. *)
Theorem header_checkbox_reflects_rows (h : list event) st (calls : list call)
    (selectAll : option headCheckbox) (head : list th) (body : list tr)
    (box : headCheckbox) :
  run p initial h = Normal (st, calls) →
  render p st = Normal (TableView selectAll head body) →
  selectAll = Some box →
  (checked box = true ↔ ∀ row, row ∈ body → isSelected row = true)
  ∧ (indeterminate box = true
     ↔ (∃ row, row ∈ body ∧ isSelected row = true)
       ∧ (∃ row, row ∈ body ∧ isSelected row = false)).
Proof.
  intros Hrun Hrender Hbox.
  assert (keyed st) as Hst.
  { eapply run_keyed; [done|]. split; [apply NoDup_nil_2|by intros k ?%elem_of_nil]. }
  destruct (render_TableView _ _ _ _ Hrender) as (rows & Hperm & -> & HselectAll).
  assert (data p ≠ []) as Hdata.
  { unfold render in Hrender.
    destruct (sortedData (data p) (sortConfig st)); cbn in Hrender; [|done].
    destruct (loading p); [done|]. case_bool_decide; [done|].
    by destruct (data p). }
  assert (0 < length (data p))%nat as Hpos.
  { destruct (data p); [done|]. cbn. lia. }
  destruct (keyed_full st Hst) as [Hle Hfull].
  rewrite HselectAll in Hbox. destruct (selectable p); [|done].
  injection Hbox as <-. cbn [checked indeterminate].
  unfold isAllSelected, isIndeterminate, Set_size.
  rewrite !andb_true_iff, !bool_decide_eq_true.
  split.
  - split.
    + intros [Heq _] row (record & Hrecord & ->)%(body_elem st rows); [|done].
      apply Set_has_true. by apply (proj1 Hfull).
    + intros Hall. split; [|done]. apply (proj2 Hfull). intros record Hrecord.
      destruct (elem_body st rows record Hperm Hrecord) as (row & Hrow & Hsel).
      apply Set_has_true. rewrite <-Hsel. by apply Hall.
  - split.
    + intros [Hsome Hless]. split.
      * destruct (selectedRows st) as [|k sel] eqn:Hsel; [cbn in Hsome; lia|].
        destruct Hst as [_ Hsub]. rewrite Hsel in Hsub.
        destruct (proj1 (list_elem_of_fmap _ _ _) (Hsub k (list_elem_of_here _ _)))
          as (record & -> & Hrecord).
        destruct (elem_body st rows record Hperm Hrecord) as (row & Hrow & Hrowsel).
        exists row. split; [done|]. rewrite Hrowsel. apply Set_has_true.
        rewrite Hsel. apply list_elem_of_here.
      * destruct (decide (Forall (λ record, key record ∈ selectedRows st) (data p)))
          as [Hall|Hnot].
        { rewrite Forall_forall in Hall. apply (proj2 Hfull) in Hall. lia. }
        apply not_Forall_Exists in Hnot; [|apply _].
        apply Exists_exists in Hnot as (record & Hrecord & Hout).
        destruct (elem_body st rows record Hperm Hrecord) as (row & Hrow & Hrowsel).
        exists row. split; [done|]. rewrite Hrowsel.
        apply not_true_is_false. by rewrite Set_has_true.
    + intros [(row & Hrow & Hsel) (row' & Hrow' & Hunsel)].
      apply (body_elem st rows) in Hrow as (record & Hrecord & Heq); [|done].
      apply (body_elem st rows) in Hrow' as (record' & Hrecord' & Heq'); [|done].
      rewrite Heq in Hsel. apply Set_has_true in Hsel.
      rewrite Heq' in Hunsel.
      split.
      * destruct (selectedRows st); [by apply elem_of_nil in Hsel|cbn; lia].
      * destruct (decide (length (selectedRows st) = length (data p))) as [Hlen|];
          [|lia].
        pose proof (proj1 Hfull Hlen record' Hrecord') as Hin.
        apply Set_has_true in Hin. congruence.
Qed.

End header_checkbox.

(** ** InputField: what is rendered and what is called *)

Section input_field_more.
Import InputField.

Implicit Types (p : InputFieldProps) (st : state) (h : list event).

(** X9. At most one of the loader, the visibility button and the clear
    button is rendered (they share one place), and a rendered button comes
    with the wide right padding of the input. *)
Theorem adornments_exclusive p st :
  (loader (render p st) = true →
   toggle (render p st) = None ∧ clearButton (render p st) = false)
  ∧ (is_Some (toggle (render p st)) → clearButton (render p st) = false)
  ∧ (is_Some (toggle (render p st)) ∨ clearButton (render p st) = true →
     padding_right p = "12").
Proof.
  unfold padding_right. cbn.
  destruct (loading p), (showClearButton p), (truthy (value p));
    case_bool_decide; cbn; split_and!; try done;
    try (by intros [x [=]]); try (by intros [[x [=]]|[=]]).
Qed.

Lemma dispatch_calls p st st' (e : event) : (dispatch p st e).2 = (dispatch p st' e).2.
Proof.
  destruct e; cbn; try done.
  - by destruct (negb (loading p) && bool_decide (type p = password)).
  - by destruct (negb (loading p) && showClearButton p && truthy (value p)
                 && negb (bool_decide (type p = password))).
Qed.

Lemma run_calls p st st0 h :
  (run p st h).2 = h ≫= (λ e, (dispatch p st0 e).2).
Proof.
  revert st. induction h as [|e h IH]; intros st; [done|]. cbn [run].
  rewrite bind_cons, (dispatch_calls p st0 st e).
  destruct (dispatch p st e) as [st1 calls1]. specialize (IH st1).
  destruct (run p st1 h) as [st2 calls2]. cbn in *. by rewrite IH.
Qed.

(** X10. The calls the input makes do not depend on its state: without
    [onChange] no history makes a call; with it every call is a call of
    [onChange], with a typed value or, from the clear button, with the
    empty string; focus, blur and visibility clicks call nothing. *)
Theorem onChange_calls p st h :
  (onChange p = None → (run p st h).2 = [])
  ∧ (∀ st', (run p st' h).2 = (run p st h).2)
  ∧ (∀ c, c ∈ (run p st h).2 →
       ∃ f s, onChange p = Some f ∧ c = Call f {| target_value := s |}
              ∧ (Input s ∈ h
                 ∨ s = "" ∧ ClickClear ∈ h ∧ clearButton (render p st) = true))
  ∧ (Forall (λ e, e = Focus ∨ e = Blur ∨ e = ClickToggle) h → (run p st h).2 = []).
Proof.
  split_and!.
  - intros Hnone. rewrite (run_calls p st st).
    induction h as [|e h IH]; [done|]. cbn. rewrite IH, app_nil_r.
    destruct e; cbn; try done.
    + by rewrite Hnone.
    + by destruct (negb (loading p) && bool_decide (type p = password)).
    + unfold handleClear. rewrite Hnone. by destruct (_ && _).
  - intros st'. by rewrite (run_calls p st' st), (run_calls p st st).
  - intros c. rewrite (run_calls p st st).
    intros (e & Hc & He)%list_elem_of_bind.
    destruct e as [| |s| |]; cbn in Hc; try by apply elem_of_nil in Hc.
    + destruct (onChange p) as [f|]; [|by apply elem_of_nil in Hc].
      apply list_elem_of_singleton in Hc as ->. exists f, s. auto.
    + by destruct (negb (loading p) && bool_decide (type p = password));
        apply elem_of_nil in Hc.
    + destruct (clearButton (render p st)) eqn:Hclear; cbn in Hclear;
        rewrite Hclear in Hc; [|by apply elem_of_nil in Hc].
      unfold handleClear in Hc.
      destruct (onChange p) as [f|]; [|by apply elem_of_nil in Hc].
      apply list_elem_of_singleton in Hc as ->. exists f, "".
      split_and!; [done..|]. right. by split_and!.
  - intros Hall. rewrite (run_calls p st st).
    induction Hall as [|e h [->|[->| ->]] _ IH]; [done|..]; cbn; rewrite ?IH; try done.
    by destruct (negb (loading p) && bool_decide (type p = password)).
Qed.

(** X11. Where the visibility button is not rendered (another type than
    ['password'], or a loading input), no history changes the visibility
    state, so the input keeps the type it shows; for another type than
    ['password'] that is the type of the props. *)
Theorem visibility_fixed_without_toggle p st h :
  toggle (render p st) = None →
  showPassword (run p st h).1 = showPassword st
  ∧ inputType p (run p st h).1 = inputType p st
  ∧ (type p ≠ password → inputType p (run p st h).1 = type p).
Proof.
  intros Hnone.
  assert (showPassword (run p st h).1 = showPassword st) as Hshow.
  { revert st Hnone. induction h as [|e h IH]; intros st Hnone; [done|]. cbn [run].
    assert (showPassword (dispatch p st e).1 = showPassword st) as He.
    { destruct e; cbn; try done.
      - cbn in Hnone. by destruct (negb (loading p) && bool_decide (type p = password)).
      - by destruct (_ && _). }
    destruct (dispatch p st e) as [st1 calls1]. cbn in He.
    assert (toggle (render p st1) = None) as Hnone1.
    { cbn in *. by destruct (negb (loading p) && bool_decide (type p = password)). }
    specialize (IH st1 Hnone1).
    destruct (run p st1 h) as [st2 calls2]. cbn in *. congruence. }
  split_and!; [done| |].
  - unfold inputType. by rewrite Hshow.
  - intros Htype. unfold inputType. by rewrite bool_decide_eq_false_2.
Qed.

Lemma run_snoc p st h (e : event) :
  (run p st (h ++ [e])).1 = (dispatch p (run p st h).1 e).1.
Proof.
  rewrite run_app. cbn [run]. by destruct (dispatch p (run p st h).1 e).
Qed.

(** X12. The focus ring follows the last focus or blur: it is shown after
    a focus, not shown after a blur, and no other event changes it; a fresh
    input shows none. *)
Theorem ring_follows_focus p st h :
  ring (render p initial) = false
  ∧ ring (render p (run p st (h ++ [Focus])).1) = true
  ∧ ring (render p (run p st (h ++ [Blur])).1) = false
  ∧ (∀ e, e ≠ Focus → e ≠ Blur →
       ring (render p (run p st (h ++ [e])).1) = ring (render p (run p st h).1)).
Proof.
  split_and!; [done|by rewrite run_snoc..|].
  intros e Hfocus Hblur. rewrite run_snoc.
  destruct e; cbn; try done.
  - by destruct (negb (loading p) && bool_decide (type p = password)).
  - by destruct (_ && _).
Qed.

(** X13. The error message and the helper text are never both shown, and
    the error message wins. [aria-describedby] names a paragraph that is
    rendered, except when both texts are given: then it names the helper
    text, which is not rendered. *)
Theorem messages_and_description p st :
  (errorShown (render p st) = None ∨ helperShown (render p st) = None)
  ∧ (provided (errorMessage p) = true →
     errorShown (render p st) = errorMessage p
     ∧ helperShown (render p st) = None
     ∧ aria_invalid (render p st) = true)
  ∧ (∀ id, aria_describedby p = Some id →
       (id ∈ message_ids (render p st)
        ↔ ¬ (provided (helperText p) = true ∧ provided (errorMessage p) = true)))
  ∧ (provided (helperText p) = true → provided (errorMessage p) = true →
     aria_describedby p = Some "helper-text"
     ∧ message_ids (render p st) = ["error-text"]).
Proof.
  unfold aria_describedby, message_ids. cbn.
  destruct (errorMessage p) as [e|], (helperText p) as [t|]; cbn;
    try destruct (truthy e) eqn:He; try destruct (truthy t) eqn:Ht; cbn;
    split_and!; auto; try done;
    try (intros id [= <-]; rewrite ?list_elem_of_singleton, ?elem_of_nil;
         split; [intros; intros [? ?]; done|]; try done;
         intros Hnot; by (exfalso; apply Hnot)).
  all: by rewrite orb_true_r.
Qed.

End input_field_more.
